(** * kobraille: LaTeX arithmetic to Korean mathematical braille

    A shallow embedding of [src/kobraille/core.py] and the properties its
    specification states about it.

    Conventions of the embedding.
    - A Python [str] is the list of its Unicode code points ([char := N]);
      [py "..."] reads a literal of this file (UTF-8) as such a list, so the
      tables below look like the dict literals of the source.
    - [str.isspace] and [str.isdigit] are the tables of CPython 3.11
      (Unicode 14.0.0), written as inclusive code point ranges.
    - Exceptions are values of [Exception]; a computation that may raise
      returns a [Result].  An f-string message is modelled by the values it
      interpolates, one constructor argument per interpolated value.
    - [while] loops and the recursive descent take a [fuel] argument; the
      entry points fix it from the size of their input and are proved never
      to exhaust it.  The Python call stack is taken to be unbounded. *)

From stdpp Require Import base numbers option list strings gmap.

Open Scope N_scope.

(** ** Python strings *)

Abbreviation char := N (only parsing).
Abbreviation str := (list N) (only parsing).

Fixpoint utf8_decode (bs : list N) : str :=
  match bs with
  | [] => []
  | b0 :: bs1 =>
    if b0 <? 0x80 then b0 :: utf8_decode bs1
    else
      match bs1 with
      | [] => []
      | b1 :: bs2 =>
        if b0 <? 0xE0 then
          N.lor (N.shiftl (N.land b0 0x1F) 6) (N.land b1 0x3F)
            :: utf8_decode bs2
        else
          match bs2 with
          | [] => []
          | b2 :: bs3 =>
            if b0 <? 0xF0 then
              N.lor (N.shiftl (N.land b0 0x0F) 12)
                (N.lor (N.shiftl (N.land b1 0x3F) 6) (N.land b2 0x3F))
                :: utf8_decode bs3
            else
              match bs3 with
              | [] => []
              | b3 :: bs4 =>
                N.lor (N.shiftl (N.land b0 0x07) 18)
                  (N.lor (N.shiftl (N.land b1 0x3F) 12)
                     (N.lor (N.shiftl (N.land b2 0x3F) 6) (N.land b3 0x3F)))
                  :: utf8_decode bs4
              end
          end
      end
  end.

(** The Python string denoted by a literal of this file. *)
Definition py (s : string) : str :=
  utf8_decode (Ascii.N_of_ascii <$> String.list_ascii_of_string s).

(** The single character of a one-character literal. *)
Definition char_of (s : string) : char := default 0 (head (py s)).

Definition in_ranges (table : list (N * N)) (c : char) : bool :=
  existsb (λ r, (r.1 <=? c) && (c <=? r.2)) table.

(** [str.isspace] on one character. *)
Definition isspace (c : char) : bool :=
  in_ranges
    [(0x9, 0xD); (0x1C, 0x20); (0x85, 0x85); (0xA0, 0xA0); (0x1680, 0x1680);
     (0x2000, 0x200A); (0x2028, 0x2029); (0x202F, 0x202F); (0x205F, 0x205F);
     (0x3000, 0x3000)] c.

(** [str.isdigit] on one character: Numeric_Type Decimal or Digit. *)
Definition isdigit (c : char) : bool :=
  in_ranges
    [(0x30, 0x39); (0xB2, 0xB3); (0xB9, 0xB9); (0x660, 0x669); (0x6F0, 0x6F9);
     (0x7C0, 0x7C9); (0x966, 0x96F); (0x9E6, 0x9EF); (0xA66, 0xA6F);
     (0xAE6, 0xAEF); (0xB66, 0xB6F); (0xBE6, 0xBEF); (0xC66, 0xC6F);
     (0xCE6, 0xCEF); (0xD66, 0xD6F); (0xDE6, 0xDEF); (0xE50, 0xE59);
     (0xED0, 0xED9); (0xF20, 0xF29); (0x1040, 0x1049); (0x1090, 0x1099);
     (0x1369, 0x1371); (0x17E0, 0x17E9); (0x1810, 0x1819); (0x1946, 0x194F);
     (0x19D0, 0x19DA); (0x1A80, 0x1A89); (0x1A90, 0x1A99); (0x1B50, 0x1B59);
     (0x1BB0, 0x1BB9); (0x1C40, 0x1C49); (0x1C50, 0x1C59); (0x2070, 0x2070);
     (0x2074, 0x2079); (0x2080, 0x2089); (0x2460, 0x2468); (0x2474, 0x247C);
     (0x2488, 0x2490); (0x24EA, 0x24EA); (0x24F5, 0x24FD); (0x24FF, 0x24FF);
     (0x2776, 0x277E); (0x2780, 0x2788); (0x278A, 0x2792); (0xA620, 0xA629);
     (0xA8D0, 0xA8D9); (0xA900, 0xA909); (0xA9D0, 0xA9D9); (0xA9F0, 0xA9F9);
     (0xAA50, 0xAA59); (0xABF0, 0xABF9); (0xFF10, 0xFF19); (0x104A0, 0x104A9);
     (0x10A40, 0x10A43); (0x10D30, 0x10D39); (0x10E60, 0x10E68);
     (0x11052, 0x1105A); (0x11066, 0x1106F); (0x110F0, 0x110F9);
     (0x11136, 0x1113F); (0x111D0, 0x111D9); (0x112F0, 0x112F9);
     (0x11450, 0x11459); (0x114D0, 0x114D9); (0x11650, 0x11659);
     (0x116C0, 0x116C9); (0x11730, 0x11739); (0x118E0, 0x118E9);
     (0x11950, 0x11959); (0x11C50, 0x11C59); (0x11D50, 0x11D59);
     (0x11DA0, 0x11DA9); (0x16A60, 0x16A69); (0x16AC0, 0x16AC9);
     (0x16B50, 0x16B59); (0x1D7CE, 0x1D7FF); (0x1E140, 0x1E149);
     (0x1E2F0, 0x1E2F9); (0x1E950, 0x1E959); (0x1F100, 0x1F10A);
     (0x1FBF0, 0x1FBF9)] c.

(** [text.replace(old, "")] for a one-character [old]. *)
Definition replace_with_empty (old : char) (text : str) : str :=
  filter (λ c, c ≠ old) text.

Fixpoint lstrip (s : str) : str :=
  match s with
  | c :: s' => if isspace c then lstrip s' else s
  | [] => []
  end.

Definition rstrip (s : str) : str := reverse (lstrip (reverse s)).

(** [s.strip()] *)
Definition strip (s : str) : str := rstrip (lstrip s).

(** [s[i:j]] for indices that are not negative. *)
Definition slice (s : str) (i j : nat) : str := take (j - i) (drop i s).

(** ** Tokens, exceptions and results *)

Inductive TokenType :=
  NUMBER | PLUS | MINUS | STAR | SLASH | LPAREN | RPAREN | EOF.

Global Instance TokenType_eq_dec : EqDecision TokenType.
Proof. solve_decision. Defined.

Record Token := mkToken { type : TokenType; value : str }.

Global Instance Token_eq_dec : EqDecision Token.
Proof. solve_decision. Defined.

(** The two messages a [ParseError] is raised with: by [_eat] (the expected
    kind, the kind and the text of the token found) and by [parse_factor]
    (the kind and the text of the token found, where a NUMBER or a left
    parenthesis was expected). *)
Inductive ParseMessage :=
  | Expected (expected : TokenType) (tok : Token)
  | ExpectedFactor (tok : Token).

Inductive Exception :=
  | LexError (ch : char) (pos len : nat) (text : str)
  | ParseError (msg : ParseMessage)
  | KeyError (key : str)
  | IndexError.

Inductive Result (A : Type) :=
  | Ok (a : A)
  | Raise (e : Exception)
  | OutOfFuel.
Arguments Ok {A} a.
Arguments Raise {A} e.
Arguments OutOfFuel {A}.

Global Instance Result_ret : MRet Result := @Ok.
Global Instance Result_bind : MBind Result := λ A B f m,
  match m with
  | Ok a => f a
  | Raise e => Raise e
  | OutOfFuel => OutOfFuel
  end.

(** ** PART 1. Lexer *)

Module Lexer.

Record t := mk { text : str; pos : nat }.

Definition _CHAR_MAP : gmap char TokenType :=
  list_to_map
    [(char_of "+", PLUS);
     (char_of "-", MINUS);
     (char_of "*", STAR);
     (char_of "/", SLASH);
     (char_of "(", LPAREN);
     (char_of ")", RPAREN)].

Definition __init__ (text : str) : t :=
  {| text := strip (replace_with_empty (char_of "$") text); pos := 0 |}.

Definition _current (self : t) : option char :=
  if bool_decide (pos self < length (text self))%nat
  then text self !! pos self
  else None.

Definition _advance (self : t) : t :=
  {| text := text self; pos := pos self + 1 |}.

Fixpoint _skip_whitespace (fuel : nat) (self : t) : Result t :=
  match fuel with
  | O => OutOfFuel
  | S fuel =>
    match _current self with
    | Some ch =>
      if isspace ch then _skip_whitespace fuel (_advance self) else Ok self
    | None => Ok self
    end
  end.

(** The [while] loop of [_read_number]. *)
Fixpoint _read_number_loop (fuel : nat) (self : t) : Result t :=
  match fuel with
  | O => OutOfFuel
  | S fuel =>
    match _current self with
    | Some ch =>
      if isdigit ch then _read_number_loop fuel (_advance self) else Ok self
    | None => Ok self
    end
  end.

Definition _read_number (fuel : nat) (self : t) : Result (Token * t) :=
  let start := pos self in
  self ← _read_number_loop fuel self;
  Ok (mkToken NUMBER (slice (text self) start (pos self)), self).

(** The [while True] loop of [tokenize]. *)
Fixpoint tokenize_loop (fuel : nat) (self : t) (tokens : list Token)
    : Result (list Token) :=
  match fuel with
  | O => OutOfFuel
  | S fuel =>
    self ← _skip_whitespace fuel self;
    match _current self with
    | None => Ok (tokens ++ [mkToken EOF []])
    | Some ch =>
      if isdigit ch then
        '(tok, self) ← _read_number fuel self;
        tokenize_loop fuel self (tokens ++ [tok])
      else
        match _CHAR_MAP !! ch with
        | Some ty =>
          tokenize_loop fuel (_advance self) (tokens ++ [mkToken ty [ch]])
        | None =>
          Raise (LexError ch (pos self) (length (text self)) (text self))
        end
    end
  end.

Definition tokenize (self : t) : Result (list Token) :=
  tokenize_loop (length (text self) + 2) self [].

End Lexer.

(** ** PART 2. AST nodes *)

Inductive Node :=
  | NumberNode (value : str)
  | BinaryOpNode (op : str) (left right : Node)
  | GroupNode (expr : Node).

(** ** PART 3. Parser *)

Module Parser.

Record t := mk { tokens : list Token; pos : nat }.

Definition __init__ (tokens : list Token) : t :=
  {| tokens := tokens; pos := 0 |}.

(** A method of the parser object: it returns or raises, and leaves the
    object in a new state either way. *)
Definition M (A : Type) : Type := t → Result A * t.

Definition ret {A} (a : A) : M A := λ self, (Ok a, self).
Definition raise {A} (e : Exception) : M A := λ self, (Raise e, self).
Definition out_of_fuel {A} : M A := λ self, (OutOfFuel, self).
Definition bind {A B} (m : M A) (k : A → M B) : M B := λ self,
  match m self with
  | (Ok a, self) => k a self
  | (Raise e, self) => (Raise e, self)
  | (OutOfFuel, self) => (OutOfFuel, self)
  end.

Notation "x <- m ;; k" := (bind m (λ x, k))
  (at level 100, m at next level, right associativity).
Notation "m ;; k" := (bind m (λ _, k))
  (at level 100, right associativity).

Definition _current : M Token := λ self,
  match tokens self !! pos self with
  | Some tok => (Ok tok, self)
  | None => (Raise IndexError, self)
  end.

Definition _peek_type : M TokenType :=
  tok <- _current ;; ret (type tok).

(** [self.pos += 1] *)
Definition incr_pos : M () := λ self,
  (Ok (), {| tokens := tokens self; pos := pos self + 1 |}).

Definition _eat (expected : TokenType) : M Token :=
  tok <- _current ;;
  if bool_decide (type tok ≠ expected)
  then raise (ParseError (Expected expected tok))
  else incr_pos ;; ret tok.

Definition _advance : M Token :=
  tok <- _current ;; incr_pos ;; ret tok.

Fixpoint parse_expr (fuel : nat) : M Node :=
  match fuel with
  | O => out_of_fuel
  | S fuel =>
    node <- parse_term fuel ;;
    parse_expr_loop fuel node
  end

(** The [while] loop of [parse_expr]. *)
with parse_expr_loop (fuel : nat) (node : Node) : M Node :=
  match fuel with
  | O => out_of_fuel
  | S fuel =>
    ty <- _peek_type ;;
    if bool_decide (ty ∈ [PLUS; MINUS]) then
      op_tok <- _advance ;;
      right <- parse_term fuel ;;
      parse_expr_loop fuel (BinaryOpNode (value op_tok) node right)
    else ret node
  end

with parse_term (fuel : nat) : M Node :=
  match fuel with
  | O => out_of_fuel
  | S fuel =>
    node <- parse_factor fuel ;;
    parse_term_loop fuel node
  end

(** The [while] loop of [parse_term]. *)
with parse_term_loop (fuel : nat) (node : Node) : M Node :=
  match fuel with
  | O => out_of_fuel
  | S fuel =>
    ty <- _peek_type ;;
    if bool_decide (ty ∈ [STAR; SLASH]) then
      op_tok <- _advance ;;
      right <- parse_factor fuel ;;
      parse_term_loop fuel (BinaryOpNode (value op_tok) node right)
    else ret node
  end

with parse_factor (fuel : nat) : M Node :=
  match fuel with
  | O => out_of_fuel
  | S fuel =>
    tok <- _current ;;
    if bool_decide (type tok = NUMBER) then
      _advance ;;
      ret (NumberNode (value tok))
    else if bool_decide (type tok = LPAREN) then
      _eat LPAREN ;;
      inner <- parse_expr fuel ;;
      _eat RPAREN ;;
      ret (GroupNode inner)
    else raise (ParseError (ExpectedFactor tok))
  end.

Definition parse_with (fuel : nat) : M Node :=
  tree <- parse_expr fuel ;;
  _eat EOF ;;
  ret tree.

Definition parse : M Node := λ self,
  parse_with (3 * length (tokens self) + 3) self.

End Parser.

(** ** PART 4. Visitors *)

Module BrailleVisitor.

Definition NUMBER_INDICATOR : str := py "⠼".

Definition DIGIT_MAP : gmap char str :=
  list_to_map
    [(char_of "0", py "⠚");
     (char_of "1", py "⠁");
     (char_of "2", py "⠃");
     (char_of "3", py "⠉");
     (char_of "4", py "⠙");
     (char_of "5", py "⠑");
     (char_of "6", py "⠋");
     (char_of "7", py "⠛");
     (char_of "8", py "⠓");
     (char_of "9", py "⠊")].

Definition OP_MAP : gmap str str :=
  list_to_map
    [(py "+", py "⠢");
     (py "-", py "⠔");
     (py "*", py "⠡");
     (py "/", py "⠌⠌")].

Definition LPAREN_BRAILLE : str := py "⠦".
Definition RPAREN_BRAILLE : str := py "⠴".

(** [d[key]] on a dict *)
Definition getitem {K} `{Countable K} (d : gmap K str) (key : K)
    (repr : K → str) : Result str :=
  match d !! key with
  | Some v => Ok v
  | None => Raise (KeyError (repr key))
  end.

(** ["".join(self.DIGIT_MAP[d] for d in num_str)] *)
Fixpoint join_digits (num_str : str) : Result str :=
  match num_str with
  | [] => Ok []
  | d :: num_str =>
    b ← getitem DIGIT_MAP d (λ d, [d]);
    rest ← join_digits num_str;
    Ok (b ++ rest)
  end.

Definition _number_to_braille (num_str : str) (with_indicator : bool)
    : Result str :=
  let indicator := if with_indicator then NUMBER_INDICATOR else [] in
  digits ← join_digits num_str;
  Ok (indicator ++ digits).

(** [_visit(node, need_indicator)] is
    [node.accept(_ContextVisitor(self, need_indicator))]: one branch per
    [visit_*] method of [_ContextVisitor]. *)
Fixpoint _visit (node : Node) (need_indicator : bool) : Result str :=
  match node with
  | NumberNode value =>
    _number_to_braille value need_indicator
  | BinaryOpNode node_op node_left node_right =>
    left ← _visit node_left need_indicator;
    op ← getitem OP_MAP node_op id;
    right ← _visit node_right true;
    Ok (left ++ op ++ right)
  | GroupNode expr =>
    inner ← _visit expr true;
    Ok (LPAREN_BRAILLE ++ inner ++ RPAREN_BRAILLE)
  end.

Definition convert (node : Node) : Result str := _visit node true.

(** [node.accept(self)] for the [BrailleVisitor] itself: one branch per
    [visit_*] method of [BrailleVisitor]. *)
Definition accept (node : Node) : Result str :=
  match node with
  | NumberNode value =>
    _number_to_braille value true
  | BinaryOpNode node_op node_left node_right =>
    left ← _visit node_left true;
    op ← getitem OP_MAP node_op id;
    right ← _visit node_right true;
    Ok (left ++ op ++ right)
  | GroupNode expr =>
    inner ← _visit expr true;
    Ok (LPAREN_BRAILLE ++ inner ++ RPAREN_BRAILLE)
  end.

(** The values of [need_indicator] that the calls of [_visit] receive
    during [_visit node need_indicator], in the order of the calls. *)
Fixpoint _visit_flags (node : Node) (need_indicator : bool) : list bool :=
  need_indicator ::
  match node with
  | NumberNode _ => []
  | BinaryOpNode _ node_left node_right =>
    _visit_flags node_left need_indicator ++ _visit_flags node_right true
  | GroupNode expr => _visit_flags expr true
  end.

End BrailleVisitor.

Module DebugVisitor.

(** [node.accept(self)]: one branch per [visit_*] method. *)
Fixpoint accept (node : Node) : str :=
  match node with
  | NumberNode value => value
  | BinaryOpNode node_op node_left node_right =>
    let left := accept node_left in
    let right := accept node_right in
    py "(" ++ left ++ py " " ++ node_op ++ py " " ++ right ++ py ")"
  | GroupNode expr =>
    let inner := accept expr in
    py "[" ++ inner ++ py "]"
  end.

End DebugVisitor.

(** ** PART 5. The pipeline *)

Definition tokenize (latex : str) : Result (list Token) :=
  Lexer.tokenize (Lexer.__init__ latex).

Definition parse (tokens : list Token) : Result Node :=
  (Parser.parse (Parser.__init__ tokens)).1.

Definition latex_to_korean_braille (latex : str) : Result str :=
  tokens ← tokenize latex;
  ast ← parse tokens;
  BrailleVisitor.convert ast.

(** The structure echo of the demo driver: lex, parse, [DebugVisitor]. *)
Definition debug_echo (latex : str) : Result str :=
  tokens ← tokenize latex;
  ast ← parse tokens;
  Ok (DebugVisitor.accept ast).

(** * Properties *)

(** ** Chains: a relation holds between every two adjacent elements *)

Inductive adjacent {A} (R : A → A → Prop) : list A → Prop :=
  | adjacent_nil : adjacent R []
  | adjacent_one a : adjacent R [a]
  | adjacent_cons a b l :
      R a b → adjacent R (b :: l) → adjacent R (a :: b :: l).

Section adjacent.
Context {A : Type} (R : A → A → Prop).
Implicit Types l : list A.

Lemma adjacent_app l1 l2 :
  adjacent R l1 → adjacent R l2 →
  (∀ a b, last l1 = Some a → head l2 = Some b → R a b) →
  adjacent R (l1 ++ l2).
Proof.
  intros H1 H2 Hb. induction H1 as [|a|a b l Hab H1 IH]; simpl.
  - done.
  - destruct l2 as [|b l2]; [constructor|].
    constructor; [by apply Hb|done].
  - constructor; [done|]. apply IH. intros x y Hx Hy. by apply Hb.
Qed.

Lemma adjacent_lookup l i a b :
  adjacent R l → l !! i = Some a → l !! S i = Some b → R a b.
Proof.
  intros H. revert i. induction H as [|x|x y l Hxy H IH]; intros i Ha Hb.
  - done.
  - by destruct i.
  - destruct i as [|i]; simplify_eq/=; [done|]. by eapply IH.
Qed.

Lemma adjacent_all l :
  (∀ a b, a ∈ l → b ∈ l → R a b) → adjacent R l.
Proof.
  induction l as [|a [|b l] IH]; intros H; try constructor.
  - apply H; repeat constructor.
  - apply IH. intros x y Hx Hy. apply H; by constructor.
Qed.
End adjacent.

(** ** The symbols of the output *)

(** The number indicator as one symbol. *)
Definition indicator : char := char_of "⠼".

(** A numeral symbol is a symbol that the digit table produces. *)
Definition numeral (c : char) : Prop :=
  ∃ d b, BrailleVisitor.DIGIT_MAP !! d = Some b ∧ c ∈ b.

(** Any other symbol: operators and brackets. *)
Definition separator (c : char) : Prop := ¬ numeral c ∧ c ≠ indicator.

(** The characters the digit table has a symbol for. *)
Definition ascii_digit (c : char) : Prop := 0x30 ≤ c ≤ 0x39.

Ltac elem_of_cases H :=
  repeat match type of H with
  | _ ∈ [] => by apply elem_of_nil in H
  | _ ∈ _ :: _ => apply elem_of_cons in H as [H|H]
  end.

Lemma DIGIT_MAP_lookup d b :
  BrailleVisitor.DIGIT_MAP !! d = Some b →
  ascii_digit d ∧ ∃ c, b = [c] ∧ c ∈ py "⠚⠁⠃⠉⠙⠑⠋⠛⠓⠊".
Proof.
  intros H. apply elem_of_list_to_map_2 in H.
  elem_of_cases H; simplify_eq; (split; [by vm_compute|]);
    eexists; (split; [reflexivity|]); vm_compute; repeat constructor.
Qed.

Lemma DIGIT_MAP_ascii d :
  ascii_digit d → is_Some (BrailleVisitor.DIGIT_MAP !! d).
Proof.
  intros [H1 H2].
  assert (d ∈ [0x30; 0x31; 0x32; 0x33; 0x34; 0x35; 0x36; 0x37; 0x38; 0x39])
    as Hd.
  { assert (d = 0x30 ∨ d = 0x31 ∨ d = 0x32 ∨ d = 0x33 ∨ d = 0x34 ∨ d = 0x35
            ∨ d = 0x36 ∨ d = 0x37 ∨ d = 0x38 ∨ d = 0x39) by lia.
    repeat rewrite elem_of_cons. tauto. }
  elem_of_cases Hd; subst; vm_compute; eauto.
Qed.

Lemma numeral_spec c : numeral c ↔ c ∈ py "⠚⠁⠃⠉⠙⠑⠋⠛⠓⠊".
Proof.
  split.
  - intros (d & b & Hd & Hc). apply DIGIT_MAP_lookup in Hd as (_ & x & -> & Hx).
    by apply list_elem_of_singleton in Hc as ->.
  - intros H.
    let l := eval vm_compute in (py "⠚⠁⠃⠉⠙⠑⠋⠛⠓⠊") in
      change (py "⠚⠁⠃⠉⠙⠑⠋⠛⠓⠊") with l in H.
    elem_of_cases H; subst.
    + exists (char_of "0"); eexists; split; [by vm_compute|]; repeat constructor.
    + exists (char_of "1"); eexists; split; [by vm_compute|]; repeat constructor.
    + exists (char_of "2"); eexists; split; [by vm_compute|]; repeat constructor.
    + exists (char_of "3"); eexists; split; [by vm_compute|]; repeat constructor.
    + exists (char_of "4"); eexists; split; [by vm_compute|]; repeat constructor.
    + exists (char_of "5"); eexists; split; [by vm_compute|]; repeat constructor.
    + exists (char_of "6"); eexists; split; [by vm_compute|]; repeat constructor.
    + exists (char_of "7"); eexists; split; [by vm_compute|]; repeat constructor.
    + exists (char_of "8"); eexists; split; [by vm_compute|]; repeat constructor.
    + exists (char_of "9"); eexists; split; [by vm_compute|]; repeat constructor.
Qed.

Lemma indicator_not_numeral : ¬ numeral indicator.
Proof. rewrite numeral_spec. compute_done. Qed.

Lemma OP_MAP_lookup op sym :
  BrailleVisitor.OP_MAP !! op = Some sym →
  op ∈ [py "+"; py "-"; py "*"; py "/"] ∧ sym ≠ [] ∧ Forall separator sym.
Proof.
  intros H. apply elem_of_list_to_map_2 in H.
  elem_of_cases H; simplify_eq;
    (split; [vm_compute; repeat constructor|]); (split; [done|]);
    repeat constructor; try (rewrite numeral_spec; compute_done);
    compute_done.
Qed.

Lemma separator_LPAREN : Forall separator BrailleVisitor.LPAREN_BRAILLE.
Proof.
  repeat constructor; [rewrite numeral_spec|]; compute_done.
Qed.

Lemma separator_RPAREN : Forall separator BrailleVisitor.RPAREN_BRAILLE.
Proof.
  repeat constructor; [rewrite numeral_spec|]; compute_done.
Qed.

(** ** Results *)

Lemma bind_Ok {A B} (m : Result A) (f : A → Result B) b :
  m ≫= f = Ok b ↔ ∃ a, m = Ok a ∧ f a = Ok b.
Proof.
  destruct m as [a|e|]; simpl; split; intros H; try done.
  - by exists a.
  - by destruct H as (? & [= ->] & ?).
  - by destruct H as (? & ? & ?).
  - by destruct H as (? & ? & ?).
Qed.

Lemma bind_Raise {A B} (m : Result A) (f : A → Result B) e :
  m ≫= f = Raise e ↔ m = Raise e ∨ ∃ a, m = Ok a ∧ f a = Raise e.
Proof.
  destruct m as [a|e'|]; simpl; split; intros H.
  - right. by exists a.
  - by destruct H as [?|(? & [= ->] & ?)].
  - left. by injection H as ->.
  - destruct H as [[= ->]|(? & ? & ?)]; done.
  - done.
  - by destruct H as [?|(? & ? & ?)].
Qed.

Lemma Ok_inj {A} (a b : A) : Ok a = Ok b → a = b.
Proof. by intros [= ->]. Qed.

Ltac inv_bind H :=
  repeat match type of H with
  | _ ≫= _ = Ok _ =>
    let a := fresh "a" in
    let Ha := fresh "Ha" in
    apply bind_Ok in H as (a & Ha & H)
  | Ok _ = Ok _ => apply Ok_inj in H
  end.

(** ** The indicator discipline of the encoder *)

(** What two adjacent output symbols must satisfy: a numeral follows a
    numeral or the indicator, and the indicator is followed by a numeral. *)
Definition marks (a b : char) : Prop :=
  (numeral b → numeral a ∨ a = indicator) ∧ (a = indicator → numeral b).

(** A piece of output that can stand anywhere between other such pieces. *)
Definition well_marked (out : str) : Prop :=
  adjacent marks out
  ∧ (∃ c, head out = Some c ∧ ¬ numeral c)
  ∧ (∃ c, last out = Some c ∧ c ≠ indicator).

Lemma well_marked_app l1 l2 :
  well_marked l1 → well_marked l2 → well_marked (l1 ++ l2).
Proof.
  intros (Ha1 & (c1 & Hh1 & Hc1) & (d1 & Hl1 & Hd1))
         (Ha2 & (c2 & Hh2 & Hc2) & (d2 & Hl2 & Hd2)).
  split_and!.
  - apply adjacent_app; [done..|]. intros a b Ha Hb. simplify_eq.
    split; [by intros ?|by intros ->].
  - exists c1. by rewrite head_app, Hh1.
  - exists d2. by rewrite last_app, Hl2.
Qed.

Lemma well_marked_separators sym :
  sym ≠ [] → Forall separator sym → well_marked sym.
Proof.
  intros Hne Hall. rewrite Forall_forall in Hall. split_and!.
  - apply adjacent_all. intros a b [??]%Hall [??]%Hall.
    split; [by intros ?|by intros ->].
  - destruct sym as [|c sym]; [done|]. exists c.
    split; [done|]. apply Hall. by left.
  - destruct (last sym) as [c|] eqn:Hl; [|by apply last_None in Hl].
    exists c. split; [done|]. apply last_Some in Hl as [l' ->].
    apply Hall. apply elem_of_app. right. by left.
Qed.

Lemma well_marked_number ds :
  ds ≠ [] → Forall numeral ds → well_marked (indicator :: ds).
Proof.
  intros Hne Hall. split_and!.
  - destruct ds as [|d ds]; [done|].
    apply Forall_cons in Hall as [Hd Hall]. constructor.
    + split; [by right|done].
    + clear Hne. revert d Hd. induction Hall as [|x l Hx Hl IH]; intros d Hd.
      * constructor.
      * constructor; [|by apply IH]. split; [by left|].
        intros ->. by destruct indicator_not_numeral.
  - exists indicator. split; [done|]. apply indicator_not_numeral.
  - destruct (last ds) as [c|] eqn:Hl; [|by apply last_None in Hl].
    exists c. split.
    + by rewrite last_cons, Hl.
    + apply last_Some in Hl as [l' ->].
      rewrite Forall_app, Forall_singleton in Hall. destruct Hall as [_ Hc].
      intros ->. by destruct indicator_not_numeral.
Qed.

(** Index [i] of [out] holds the first symbol of a maximal run of numeral
    symbols. *)
Definition run_start (out : str) (i : nat) : Prop :=
  (∃ c, out !! i = Some c ∧ numeral c)
  ∧ ∀ j p, i = S j → out !! j = Some p → ¬ numeral p.

(** Every maximal run of numeral symbols is immediately preceded by one
    indicator, which no further indicator precedes; and an indicator stands
    nowhere but immediately before such a run. *)
Definition indicator_discipline (out : str) : Prop :=
  (∀ i, run_start out i →
     ∃ j, i = S j ∧ out !! j = Some indicator
          ∧ ∀ k, j = S k → out !! k ≠ Some indicator)
  ∧ (∀ j, out !! j = Some indicator → run_start out (S j)).

Lemma well_marked_discipline out :
  well_marked out → indicator_discipline out.
Proof.
  intros (Hadj & (c0 & Hhead & Hc0) & (cl & Hlast & Hcl)). split.
  - intros i [(c & Hi & Hc) Hprev]. destruct i as [|j].
    { rewrite <-head_lookup, Hhead in Hi. by simplify_eq. }
    destruct (out !! j) as [p|] eqn:Hj.
    2:{ apply lookup_ge_None in Hj. apply lookup_lt_Some in Hi. lia. }
    exists j. destruct (adjacent_lookup _ _ _ _ _ Hadj Hj Hi) as [Hm _].
    destruct (Hm Hc) as [Hp| ->]; [by destruct (Hprev j p)|].
    split_and!; [done..|]. intros k -> Hk.
    destruct (adjacent_lookup _ _ _ _ _ Hadj Hk Hj) as [_ Hm'].
    by apply indicator_not_numeral, Hm'.
  - intros j Hj. destruct (out !! S j) as [b|] eqn:Hb.
    + destruct (adjacent_lookup _ _ _ _ _ Hadj Hj Hb) as [_ Hm].
      split; [by eauto|]. intros j' p [= <-] Hp. simplify_eq.
      apply indicator_not_numeral.
    + apply lookup_ge_None in Hb. pose proof (lookup_lt_Some _ _ _ Hj).
      rewrite last_lookup in Hlast.
      replace (pred (length out)) with j in Hlast by lia. by simplify_eq.
Qed.

(** ** The encoder on a tree *)

Fixpoint numbers_nonempty (node : Node) : Prop :=
  match node with
  | NumberNode value => value ≠ []
  | BinaryOpNode _ node_left node_right =>
    numbers_nonempty node_left ∧ numbers_nonempty node_right
  | GroupNode expr => numbers_nonempty expr
  end.

(** The number of [NumberNode] leaves. *)
Fixpoint number_nodes (node : Node) : nat :=
  match node with
  | NumberNode _ => 1
  | BinaryOpNode _ node_left node_right =>
    (number_nodes node_left + number_nodes node_right)%nat
  | GroupNode expr => number_nodes expr
  end.

(** [s.count(c)] *)
Definition count (c : char) (s : str) : nat := length (filter (λ x, x = c) s).

Lemma count_app c s1 s2 : count c (s1 ++ s2) = (count c s1 + count c s2)%nat.
Proof. unfold count. by rewrite filter_app, length_app. Qed.

Lemma count_absent c s : Forall (λ x, x ≠ c) s → count c s = 0%nat.
Proof.
  unfold count. induction 1 as [|x s Hx Hs IH]; [done|].
  by rewrite filter_cons_False.
Qed.

Lemma join_digits_Ok num_str out :
  BrailleVisitor.join_digits num_str = Ok out ↔
  Forall2 (λ d c, BrailleVisitor.DIGIT_MAP !! d = Some [c]) num_str out.
Proof.
  revert out. induction num_str as [|d ds IH]; intros out; simpl.
  - split; [by intros [= <-]|by intros ->%Forall2_nil_inv_l].
  - unfold BrailleVisitor.getitem.
    destruct (BrailleVisitor.DIGIT_MAP !! d) as [b|] eqn:Hd; simpl.
    2:{ split; [done|]. intros (? & ? & ? & ? & ?)%Forall2_cons_inv_l.
        congruence. }
    pose proof (DIGIT_MAP_lookup _ _ Hd) as (_ & c & -> & _).
    rewrite bind_Ok. split.
    + intros (rest & Hrest%IH & [= <-]). by constructor.
    + intros (c' & rest & ? & Hrest%IH & ->)%Forall2_cons_inv_l.
      exists rest. split; [done|]. by simplify_eq.
Qed.

Lemma join_digits_numeral num_str out :
  BrailleVisitor.join_digits num_str = Ok out →
  length out = length num_str ∧ Forall numeral out.
Proof.
  rewrite join_digits_Ok. intros H. split; [by apply Forall2_length in H|].
  induction H as [|d c ds cs Hd _ IH]; constructor; [|done].
  exists d, [c]. split; [done|]. by left.
Qed.

Lemma _visit_well_marked node out :
  numbers_nonempty node →
  BrailleVisitor._visit node true = Ok out →
  well_marked out.
Proof.
  revert out. induction node as [value|op l IHl r IHr|expr IH];
    intros out Hne H; cbn [BrailleVisitor._visit numbers_nonempty] in *.
  - unfold BrailleVisitor._number_to_braille in H. inv_bind H. subst.
    apply join_digits_numeral in Ha as [Hlen Hnum].
    apply well_marked_number; [|done]. intros ->. by destruct value.
  - inv_bind H. subst. destruct Hne as [Hl Hr].
    unfold BrailleVisitor.getitem in Ha0.
    destruct (BrailleVisitor.OP_MAP !! op) as [sym|] eqn:Hop; [|done].
    simplify_eq. apply OP_MAP_lookup in Hop as (_ & Hsym & Hsep).
    apply well_marked_app; [by apply IHl|].
    apply well_marked_app; [by apply well_marked_separators|by apply IHr].
  - inv_bind H. subst.
    apply well_marked_app;
      [by apply well_marked_separators, separator_LPAREN|].
    apply well_marked_app; [by apply IH|].
    by apply well_marked_separators, separator_RPAREN.
Qed.

Lemma _visit_count node out :
  BrailleVisitor._visit node true = Ok out →
  count indicator out = number_nodes node.
Proof.
  revert out. induction node as [value|op l IHl r IHr|expr IH];
    intros out H; cbn [BrailleVisitor._visit number_nodes] in *.
  - unfold BrailleVisitor._number_to_braille in H. inv_bind H. subst.
    apply join_digits_numeral in Ha as [_ Hnum].
    rewrite count_app, (count_absent _ a); [done|].
    eapply Forall_impl; [done|]. intros c Hc ->.
    by destruct indicator_not_numeral.
  - inv_bind H. subst. unfold BrailleVisitor.getitem in Ha0.
    destruct (BrailleVisitor.OP_MAP !! op) as [sym|] eqn:Hop; [|done].
    simplify_eq. apply OP_MAP_lookup in Hop as (_ & _ & Hsep).
    rewrite !count_app, (IHl _ Ha), (IHr _ Ha1), (count_absent _ a0); [lia|].
    eapply Forall_impl; [done|]. by intros c [_ ?].
  - inv_bind H. subst.
    rewrite !count_app, (IH _ Ha), !count_absent; [lia|..];
      (eapply Forall_impl; [apply separator_RPAREN || apply separator_LPAREN|]);
      by intros c [_ ?].
Qed.

(** ** The lexer *)

(** The characters the scanning loop accepts. *)
Definition supported (c : char) : Prop :=
  isspace c = true ∨ isdigit c = true ∨ is_Some (Lexer._CHAR_MAP !! c).

(** What holds of every token before the final [EOF]. *)
Definition token_wf (tok : Token) : Prop :=
  (type tok = NUMBER ∧ value tok ≠ []
   ∧ Forall (λ c, isdigit c = true) (value tok))
  ∨ (∃ ch, value tok = [ch] ∧ Lexer._CHAR_MAP !! ch = Some (type tok)).

Lemma _CHAR_MAP_lookup ch ty :
  Lexer._CHAR_MAP !! ch = Some ty →
  (ch, ty) ∈ [(char_of "+", PLUS); (char_of "-", MINUS); (char_of "*", STAR);
              (char_of "/", SLASH); (char_of "(", LPAREN);
              (char_of ")", RPAREN)].
Proof. apply elem_of_list_to_map_2. Qed.

Lemma token_wf_type tok :
  token_wf tok → type tok ≠ EOF ∧ value tok ≠ [].
Proof.
  destruct tok as [ty v]. unfold token_wf; simpl.
  intros [(-> & ? & _)|(ch & -> & H)]; [done|].
  split; [|done]. apply _CHAR_MAP_lookup in H.
  elem_of_cases H; by simplify_eq.
Qed.

Section lexer.
Import Lexer.

Lemma _current_drop text p : _current (mk text p) = head (drop p text).
Proof.
  unfold _current; simpl. rewrite head_lookup, lookup_drop, Nat.add_0_r.
  case_bool_decide; [done|]. symmetry. apply lookup_ge_None. lia.
Qed.

Lemma drop_cons_inv (text : str) p c rest :
  drop p text = c :: rest → drop (p + 1) text = rest.
Proof.
  intros H. assert (text !! p = Some c) as Hc.
  { by rewrite <-(Nat.add_0_r p), <-lookup_drop, H. }
  rewrite (drop_S _ _ _ Hc) in H. rewrite Nat.add_1_r. by simplify_eq.
Qed.

Lemma drop_app_inv (text : str) p l rest :
  drop p text = l ++ rest → drop (p + length l) text = rest.
Proof.
  revert p. induction l as [|c l IH]; intros p H; simpl in *.
  - by rewrite Nat.add_0_r.
  - apply drop_cons_inv in H. apply IH in H.
    by rewrite <-Nat.add_assoc in H.
Qed.

(** A list splits into its longest prefix of characters of a class and
    the rest. *)
Lemma span_class (P : char → bool) (l : str) :
  ∃ l1 l2, l = l1 ++ l2 ∧ Forall (λ c, P c = true) l1
           ∧ ∀ c, head l2 = Some c → P c = false.
Proof.
  induction l as [|c l (l1 & l2 & -> & H1 & H2)].
  - exists [], []. by split_and!.
  - destruct (P c) eqn:Hc.
    + exists (c :: l1), l2. split_and!; [done|by constructor|done].
    + exists [], (c :: l1 ++ l2). split_and!; [done|done|].
      by intros ? [= <-].
Qed.

Lemma _skip_whitespace_exact fuel text p ws rest :
  drop p text = ws ++ rest →
  Forall (λ c, isspace c = true) ws →
  (∀ c, head rest = Some c → isspace c = false) →
  (length ws < fuel)%nat →
  _skip_whitespace fuel (mk text p) = Ok (mk text (p + length ws)).
Proof.
  intros Hdrop Hws Hrest. revert p fuel Hdrop.
  induction Hws as [|c ws Hc Hws IH]; intros p fuel Hdrop Hfuel;
    (destruct fuel as [|fuel]; [simpl in Hfuel; lia|]); simpl.
  - rewrite _current_drop, Hdrop, Nat.add_0_r. simpl.
    destruct (head rest) as [c|] eqn:Hh; [|done]. by rewrite (Hrest c).
  - rewrite _current_drop, Hdrop. simpl. rewrite Hc.
    unfold _advance; simpl. rewrite (IH (p + 1)%nat).
    + do 2 f_equal. lia.
    + by eapply drop_cons_inv.
    + simpl in Hfuel. lia.
Qed.

Lemma _read_number_loop_exact fuel text p ds rest :
  drop p text = ds ++ rest →
  Forall (λ c, isdigit c = true) ds →
  (∀ c, head rest = Some c → isdigit c = false) →
  (length ds < fuel)%nat →
  _read_number_loop fuel (mk text p) = Ok (mk text (p + length ds)).
Proof.
  intros Hdrop Hds Hrest. revert p fuel Hdrop.
  induction Hds as [|c ds Hc Hds IH]; intros p fuel Hdrop Hfuel;
    (destruct fuel as [|fuel]; [simpl in Hfuel; lia|]); simpl.
  - rewrite _current_drop, Hdrop, Nat.add_0_r. simpl.
    destruct (head rest) as [c|] eqn:Hh; [|done]. by rewrite (Hrest c).
  - rewrite _current_drop, Hdrop. simpl. rewrite Hc.
    unfold _advance; simpl. rewrite (IH (p + 1)%nat).
    + do 2 f_equal. lia.
    + by eapply drop_cons_inv.
    + simpl in Hfuel. lia.
Qed.

Lemma _read_number_exact fuel text p ds rest :
  drop p text = ds ++ rest →
  Forall (λ c, isdigit c = true) ds →
  (∀ c, head rest = Some c → isdigit c = false) →
  (length ds < fuel)%nat →
  _read_number fuel (mk text p)
  = Ok (mkToken NUMBER ds, mk text (p + length ds)).
Proof.
  intros Hdrop Hds Hrest Hfuel. unfold _read_number.
  rewrite (_read_number_loop_exact _ _ _ ds rest) by done. simpl.
  unfold slice. rewrite Hdrop.
  replace (p + length ds - p)%nat with (length ds) by lia.
  by rewrite take_app_length.
Qed.

(** One turn of the scanning loop, by what the input holds at the current
    position after optional whitespace: the end of the input, ... *)
Lemma tokenize_loop_eof fuel text p toks ws :
  drop p text = ws →
  Forall (λ c, isspace c = true) ws →
  (length ws < fuel)%nat →
  tokenize_loop (S fuel) (mk text p) toks = Ok (toks ++ [mkToken EOF []]).
Proof.
  intros Hdrop Hws Hfuel. simpl.
  rewrite (_skip_whitespace_exact _ _ _ ws []);
    [|by rewrite app_nil_r|done..].
  simpl. rewrite _current_drop.
  by rewrite (drop_app_inv _ _ ws []); [|by rewrite app_nil_r].
Qed.

(** ... a run of digits, ... *)
Lemma tokenize_loop_number fuel text p toks ws ds rest :
  drop p text = ws ++ ds ++ rest →
  Forall (λ c, isspace c = true) ws →
  Forall (λ c, isdigit c = true) ds →
  (∀ c, head ds = Some c → isspace c = false) →
  ds ≠ [] →
  (∀ c, head rest = Some c → isdigit c = false) →
  (length (ws ++ ds) < fuel)%nat →
  tokenize_loop (S fuel) (mk text p) toks
  = tokenize_loop fuel (mk text (p + length ws + length ds))
      (toks ++ [mkToken NUMBER ds]).
Proof.
  intros Hdrop Hws Hds Hhead Hne Hrest Hfuel.
  rewrite length_app in Hfuel. simpl.
  rewrite (_skip_whitespace_exact _ _ _ ws (ds ++ rest)); [|done..| |lia].
  2:{ intros c. destruct ds; [done|]. apply Hhead. }
  simpl. rewrite _current_drop. apply drop_app_inv in Hdrop.
  rewrite Hdrop. destruct ds as [|d ds']; [done|].
  simpl. rewrite (Forall_inv Hds).
  rewrite (_read_number_exact _ _ _ (d :: ds') rest); [done..|].
  simpl in *. lia.
Qed.

(** ... one of the six single-character tokens, ... *)
Lemma tokenize_loop_char fuel text p toks ws ch ty rest :
  drop p text = ws ++ ch :: rest →
  Forall (λ c, isspace c = true) ws →
  isspace ch = false →
  isdigit ch = false →
  _CHAR_MAP !! ch = Some ty →
  (length ws < fuel)%nat →
  tokenize_loop (S fuel) (mk text p) toks
  = tokenize_loop fuel (mk text (p + length ws + 1))
      (toks ++ [mkToken ty [ch]]).
Proof.
  intros Hdrop Hws Hsp Hdg Hch Hfuel. simpl.
  rewrite (_skip_whitespace_exact _ _ _ ws (ch :: rest));
    [|done..|by intros c [= <-]|done].
  simpl. rewrite _current_drop. apply drop_app_inv in Hdrop.
  by rewrite Hdrop; simpl; rewrite Hdg, Hch.
Qed.

(** ... or any other character. *)
Lemma tokenize_loop_other fuel text p toks ws ch rest :
  drop p text = ws ++ ch :: rest →
  Forall (λ c, isspace c = true) ws →
  ¬ supported ch →
  (length ws < fuel)%nat →
  tokenize_loop (S fuel) (mk text p) toks
  = Raise (LexError ch (p + length ws) (length text) text).
Proof.
  intros Hdrop Hws Hch Hfuel. simpl.
  assert (isspace ch = false) as Hsp.
  { destruct (isspace ch) eqn:?; [|done]. destruct Hch. by left. }
  assert (isdigit ch = false) as Hdg.
  { destruct (isdigit ch) eqn:?; [|done]. destruct Hch. by right; left. }
  assert (_CHAR_MAP !! ch = None) as Hmap.
  { destruct (_CHAR_MAP !! ch) eqn:?; [|done].
    destruct Hch. right; right. by eexists. }
  rewrite (_skip_whitespace_exact _ _ _ ws (ch :: rest));
    [|done..|by intros c [= <-]|done].
  simpl. rewrite _current_drop. apply drop_app_inv in Hdrop.
  by rewrite Hdrop; simpl; rewrite Hdg, Hmap.
Qed.

(** What the scanning loop does from position [p] on, whatever remains
    of the input: it returns the tokens of the rest of the input and a
    final [EOF], or it raises at the first character it does not accept. *)
Definition lex_post (text : str) (p : nat) (toks : list Token)
    (r : Result (list Token)) : Prop :=
  match r with
  | Ok out =>
    ∃ new, out = toks ++ new ++ [mkToken EOF []]
           ∧ Forall token_wf new
           ∧ Forall supported (drop p text)
  | Raise e =>
    ∃ pre ch post, drop p text = pre ++ ch :: post
                   ∧ Forall supported pre ∧ ¬ supported ch
                   ∧ e = LexError ch (p + length pre) (length text) text
  | OutOfFuel => False
  end.

Lemma lex_post_step text p toks tok consumed r :
  Forall supported consumed →
  token_wf tok →
  (∃ rest, drop p text = consumed ++ rest) →
  lex_post text (p + length consumed) (toks ++ [tok]) r →
  lex_post text p toks r.
Proof.
  intros Hsup Htok [rest Hdrop].
  pose proof (drop_app_inv _ _ _ _ Hdrop) as Hrest.
  destruct r as [out|e|]; simpl; [| |done].
  - intros (new & -> & Hnew & Hall). exists (tok :: new). split_and!.
    + by rewrite <-app_assoc.
    + by constructor.
    + rewrite Hdrop, <-Hrest. by apply Forall_app.
  - intros (pre & ch & post & Hd & Hpre & Hch & ->).
    exists (consumed ++ pre), ch, post. split_and!; [|by apply Forall_app|done|].
    + by rewrite Hdrop, <-Hrest, Hd, <-app_assoc.
    + rewrite length_app. f_equal. lia.
Qed.

Lemma tokenize_loop_spec fuel text p toks :
  (length (drop p text) + 1 < fuel)%nat →
  lex_post text p toks (tokenize_loop fuel (mk text p) toks).
Proof.
  revert p toks. induction fuel as [|fuel IH]; intros p toks Hfuel; [lia|].
  destruct (span_class isspace (drop p text))
    as (ws & rest & Hdrop & Hws & Hrest).
  assert (Forall supported ws) as Hws'.
  { eapply Forall_impl; [done|]. intros c Hc. by left. }
  rewrite Hdrop, length_app in Hfuel.
  destruct rest as [|ch rest].
  { rewrite app_nil_r in Hdrop. rewrite (tokenize_loop_eof _ _ _ _ ws);
      [|done|done|lia].
    exists []. by rewrite Hdrop. }
  specialize (Hrest ch eq_refl). destruct (isdigit ch) eqn:Hdg.
  - destruct (span_class isdigit (ch :: rest))
      as (ds & rest2 & Hds & Hall & Hrest2).
    destruct ds as [|d ds'].
    { simpl in Hds. subst rest2. by rewrite (Hrest2 ch) in Hdg. }
    assert (d = ch) as -> by (by simplify_eq/=).
    rewrite Hds in Hdrop, Hfuel. rewrite length_app in Hfuel.
    rewrite (tokenize_loop_number _ _ _ _ ws (ch :: ds') rest2);
      [|done|done|done|by intros ? [= <-]|done|done|
       rewrite length_app; lia].
    rewrite <-Nat.add_assoc, <-length_app.
    apply (lex_post_step _ _ _ (mkToken NUMBER (ch :: ds'))
             (ws ++ ch :: ds')).
    + apply Forall_app. split; [done|].
      eapply Forall_impl; [done|]. intros c Hc. by right; left.
    + left. by split_and!.
    + exists rest2. by rewrite <-app_assoc.
    + apply IH.
      rewrite (drop_app_inv _ _ (ws ++ ch :: ds') rest2);
        [|by rewrite <-app_assoc].
      simpl in *. lia.
  - destruct (_CHAR_MAP !! ch) as [ty|] eqn:Hmap.
    + rewrite (tokenize_loop_char _ _ _ _ ws ch ty rest); [|done..|lia].
      replace (p + length ws + 1)%nat with (p + length (ws ++ [ch]))%nat
        by (rewrite length_app; simpl; lia).
      apply (lex_post_step _ _ _ (mkToken ty [ch]) (ws ++ [ch])).
      * apply Forall_app. split; [done|]. apply Forall_singleton.
        right; right. by eexists.
      * right. by exists ch.
      * exists rest. by rewrite <-app_assoc.
      * apply IH.
        rewrite (drop_app_inv _ _ (ws ++ [ch]) rest);
          [|by rewrite <-app_assoc].
        simpl in *. lia.
    + rewrite (tokenize_loop_other _ _ _ _ ws ch rest); [|done..| |lia].
      2:{ intros [?|[?|[? ?]]]; congruence. }
      exists ws, ch, rest. split_and!; [done..| |done].
      intros [?|[?|[? ?]]]; congruence.
Qed.

End lexer.

(** The input as the scanning loop sees it. *)
Definition normalized (latex : str) : str :=
  Lexer.text (Lexer.__init__ latex).

Lemma tokenize_spec latex :
  lex_post (normalized latex) 0 [] (tokenize latex).
Proof.
  unfold tokenize, Lexer.tokenize.
  destruct (Lexer.__init__ latex) as [text p] eqn:Hinit.
  assert (p = 0%nat) as -> by (by injection Hinit).
  assert (normalized latex = text) as ->.
  { unfold normalized. by rewrite Hinit. }
  apply tokenize_loop_spec. rewrite drop_0. simpl. lia.
Qed.

(** ** The grammar

    The grammar of the source, with the iteration of each rule folded to
    the left, as the [while] loops of the parser build their trees:
<<
    expr   → term   ( ('+' | '-') term   )*
    term   → factor ( ('*' | '/') factor )*
    factor → NUMBER | '(' expr ')'
>>
    [Expr ts node]: the tokens [ts] are an expression and [node] is its
    tree. *)

Inductive Expr : list Token → Node → Prop :=
  | Expr_term ts node :
      Term ts node → Expr ts node
  | Expr_binop ts1 op_tok ts2 node_left node_right :
      Expr ts1 node_left →
      type op_tok ∈ [PLUS; MINUS] →
      Term ts2 node_right →
      Expr (ts1 ++ op_tok :: ts2)
        (BinaryOpNode (value op_tok) node_left node_right)
with Term : list Token → Node → Prop :=
  | Term_factor ts node :
      Factor ts node → Term ts node
  | Term_binop ts1 op_tok ts2 node_left node_right :
      Term ts1 node_left →
      type op_tok ∈ [STAR; SLASH] →
      Factor ts2 node_right →
      Term (ts1 ++ op_tok :: ts2)
        (BinaryOpNode (value op_tok) node_left node_right)
with Factor : list Token → Node → Prop :=
  | Factor_number tok :
      type tok = NUMBER →
      Factor [tok] (NumberNode (value tok))
  | Factor_group lparen ts rparen inner :
      type lparen = LPAREN →
      Expr ts inner →
      type rparen = RPAREN →
      Factor (lparen :: ts ++ [rparen]) (GroupNode inner).

Scheme Expr_mut := Minimality for Expr Sort Prop
  with Term_mut := Minimality for Term Sort Prop
  with Factor_mut := Minimality for Factor Sort Prop.
Combined Scheme grammar_ind from Expr_mut, Term_mut, Factor_mut.

(** The token [tok], found where the parser stopped, is what [e] reports:
    the kind the parser expected there and the token itself. *)
Definition raised_on (e : Exception) (tok : Token) : Prop :=
  (∃ expected, e = ParseError (Expected expected tok)
               ∧ expected ∈ [RPAREN; EOF] ∧ type tok ≠ expected)
  ∨ (e = ParseError (ExpectedFactor tok) ∧ type tok ∉ [NUMBER; LPAREN]).

Section parser.
Import Parser.

(** The token list, and an [EOF] token in it. *)
Context (toks : list Token) (k : nat) (eof : Token).
Hypothesis Hk : toks !! k = Some eof.
Hypothesis Heof : type eof = EOF.

(** What a method called at position [p] does: it returns after the
    tokens [ts], which [Q] relates to its result, or it raises on the
    token it stopped at. *)
Definition post {A} (Q : list Token → A → Prop) (p : nat)
    (res : Result A * t) : Prop :=
  match res with
  | (Ok a, self) =>
    tokens self = toks ∧ (pos self ≤ k)%nat
    ∧ ∃ ts, drop p toks = ts ++ drop (pos self) toks
            ∧ pos self = (p + length ts)%nat ∧ Q ts a
  | (Raise e, self) =>
    tokens self = toks ∧ (p ≤ pos self)%nat
    ∧ ∃ tok, toks !! pos self = Some tok ∧ raised_on e tok
  | (OutOfFuel, _) => False
  end.

Lemma lookup_before_eof p :
  (p ≤ k)%nat → ∃ tok, toks !! p = Some tok.
Proof.
  intros Hp. apply lookup_lt_is_Some. apply lookup_lt_Some in Hk. lia.
Qed.

Lemma before_eof p tok :
  (p ≤ k)%nat → toks !! p = Some tok → type tok ≠ EOF → (p + 1 ≤ k)%nat.
Proof.
  intros Hp Htok Hty. destruct (decide (p = k)) as [->|]; [|lia].
  by simplify_eq.
Qed.

Lemma bind__current {B} (f : Token → M B) p tok :
  toks !! p = Some tok →
  bind _current f (mk toks p) = f tok (mk toks p).
Proof. intros H. unfold bind, _current. simpl. by rewrite H. Qed.

Lemma bind__peek_type {B} (f : TokenType → M B) p tok :
  toks !! p = Some tok →
  bind _peek_type f (mk toks p) = f (type tok) (mk toks p).
Proof. intros H. unfold bind, _peek_type, bind, _current. simpl. by rewrite H. Qed.

Lemma bind__advance {B} (f : Token → M B) p tok :
  toks !! p = Some tok →
  bind _advance f (mk toks p) = f tok (mk toks (p + 1)).
Proof. intros H. unfold bind, _advance, bind, _current. simpl. by rewrite H. Qed.

Lemma bind__eat {B} (f : Token → M B) expected p tok :
  toks !! p = Some tok →
  bind (_eat expected) f (mk toks p)
  = if bool_decide (type tok ≠ expected)
    then (Raise (ParseError (Expected expected tok)), mk toks p)
    else f tok (mk toks (p + 1)).
Proof.
  intros H. unfold bind, _eat, bind, _current. simpl. rewrite H.
  by case_bool_decide.
Qed.

Lemma post_ret {A} (Q : list Token → A → Prop) p a :
  (p ≤ k)%nat → Q [] a → post Q p (ret a (mk toks p)).
Proof.
  intros Hp HQ. simpl. split_and!; [done..|].
  exists []. split_and!; [done|simpl; lia|done].
Qed.

Lemma post_raise {A} (Q : list Token → A → Prop) p e tok :
  toks !! p = Some tok → raised_on e tok →
  post (A:=A) Q p (raise e (mk toks p)).
Proof. intros Htok He. simpl. split_and!; [done..|]. by exists tok. Qed.

(** The method consumed the token at [p] before doing the rest. *)
Lemma post_consume {A} (Q Q' : list Token → A → Prop) p tok res :
  toks !! p = Some tok →
  (∀ ts a, Q' ts a → Q (tok :: ts) a) →
  post Q' (p + 1) res → post Q p res.
Proof.
  intros Htok HQ. destruct res as [[a|e|] self]; simpl; [| |done].
  - intros (? & ? & ts & Hdrop & Hpos & Ha). split_and!; [done..|].
    exists (tok :: ts). split_and!; [|simpl; lia|by apply HQ].
    rewrite (drop_S _ _ _ Htok). simpl. f_equal.
    by rewrite <-Nat.add_1_r.
  - intros (? & ? & tok' & ? & ?). split_and!; [done|lia|]. by exists tok'.
Qed.

(** The method did [m], then [f] on its result. *)
Lemma post_bind {A B} (Q1 : list Token → A → Prop)
    (Q2 : A → list Token → B → Prop) (Q : list Token → B → Prop)
    p (m : M A) (f : A → M B) :
  post Q1 p (m (mk toks p)) →
  (∀ a p1, (p ≤ p1 ≤ k)%nat → post (Q2 a) p1 (f a (mk toks p1))) →
  (∀ ts1 ts2 a b, Q1 ts1 a → Q2 a ts2 b → Q (ts1 ++ ts2) b) →
  post Q p (bind m f (mk toks p)).
Proof.
  intros Hm Hf HQ. unfold bind.
  destruct (m (mk toks p)) as [[a|e|] [toks1 p1]]; simpl in Hm; [| |done].
  - destruct Hm as (-> & Hp1 & ts1 & Hdrop1 & -> & Ha).
    specialize (Hf a (p + length ts1)%nat).
    destruct (f a (mk toks (p + length ts1))) as [[b|e|] [toks2 p2]];
      simpl in *.
    + destruct Hf as (-> & Hp2 & ts2 & Hdrop2 & -> & Hb); [lia|].
      split_and!; [done..|]. exists (ts1 ++ ts2). split_and!.
      * by rewrite Hdrop1, Hdrop2, app_assoc.
      * rewrite length_app. lia.
      * by eapply HQ.
    + destruct Hf as (-> & Hp2 & tok & ? & ?); [lia|].
      split_and!; [done|lia|]. by exists tok.
    + apply Hf. lia.
  - done.
Qed.

(** What a [while] loop of the parser adds to the tree [node] it starts
    with, for the rule [G] that it iterates. *)
Definition loop_post (G : list Token → Node → Prop) (node : Node)
    (ts : list Token) (node' : Node) : Prop :=
  ∀ ts0, G ts0 node → G (ts0 ++ ts) node'.

Ltac unfold_parser :=
  cbn [parse_expr parse_expr_loop parse_term parse_term_loop parse_factor].

Lemma parse_correct fuel :
  (∀ p, (p ≤ k)%nat → (3 * (S k - p) + 3 ≤ fuel)%nat →
     post Expr p (parse_expr fuel (mk toks p)))
  ∧ (∀ p node, (p ≤ k)%nat → (3 * (S k - p) + 1 ≤ fuel)%nat →
     post (loop_post Expr node) p (parse_expr_loop fuel node (mk toks p)))
  ∧ (∀ p, (p ≤ k)%nat → (3 * (S k - p) + 2 ≤ fuel)%nat →
     post Term p (parse_term fuel (mk toks p)))
  ∧ (∀ p node, (p ≤ k)%nat → (3 * (S k - p) + 1 ≤ fuel)%nat →
     post (loop_post Term node) p (parse_term_loop fuel node (mk toks p)))
  ∧ (∀ p, (p ≤ k)%nat → (3 * (S k - p) + 1 ≤ fuel)%nat →
     post Factor p (parse_factor fuel (mk toks p))).
Proof.
  induction fuel as [|fuel (IHe & IHel & IHt & IHtl & IHf)].
  { split_and!; intros; lia. }
  split_and!.
  - intros p Hp Hfuel. unfold_parser.
    apply (post_bind Term (loop_post Expr) Expr).
    + apply IHt; lia.
    + intros node p1 Hp1. apply IHel; lia.
    + intros ts1 ts2 a b Ha Hb. apply Hb. by apply Expr_term.
  - intros p node Hp Hfuel. unfold_parser.
    destruct (lookup_before_eof p Hp) as [tok Htok].
    rewrite (bind__peek_type _ _ _ Htok). case_bool_decide as Hty.
    + rewrite (bind__advance _ _ _ Htok).
      assert (p + 1 ≤ k)%nat.
      { eapply before_eof; [done..|]. intros E. rewrite E in Hty.
        by elem_of_cases Hty. }
      apply (post_consume _
        (λ ts n', ∀ ts0, Expr ts0 node → Expr (ts0 ++ tok :: ts) n') _ tok);
        [done|done|].
      apply (post_bind Term
        (λ right, loop_post Expr (BinaryOpNode (value tok) node right))).
      * apply IHt; lia.
      * intros right p1 Hp1. apply IHel; lia.
      * intros ts1 ts2 right b Hr Hb ts0 H0.
        replace (ts0 ++ tok :: ts1 ++ ts2)
          with ((ts0 ++ tok :: ts1) ++ ts2) by (by rewrite <-app_assoc).
        apply Hb. by apply Expr_binop.
    + apply post_ret; [done|]. intros ts0 H0. by rewrite app_nil_r.
  - intros p Hp Hfuel. unfold_parser.
    apply (post_bind Factor (loop_post Term) Term).
    + apply IHf; lia.
    + intros node p1 Hp1. apply IHtl; lia.
    + intros ts1 ts2 a b Ha Hb. apply Hb. by apply Term_factor.
  - intros p node Hp Hfuel. unfold_parser.
    destruct (lookup_before_eof p Hp) as [tok Htok].
    rewrite (bind__peek_type _ _ _ Htok). case_bool_decide as Hty.
    + rewrite (bind__advance _ _ _ Htok).
      assert (p + 1 ≤ k)%nat.
      { eapply before_eof; [done..|]. intros E. rewrite E in Hty.
        by elem_of_cases Hty. }
      apply (post_consume _
        (λ ts n', ∀ ts0, Term ts0 node → Term (ts0 ++ tok :: ts) n') _ tok);
        [done|done|].
      apply (post_bind Factor
        (λ right, loop_post Term (BinaryOpNode (value tok) node right))).
      * apply IHf; lia.
      * intros right p1 Hp1. apply IHtl; lia.
      * intros ts1 ts2 right b Hr Hb ts0 H0.
        replace (ts0 ++ tok :: ts1 ++ ts2)
          with ((ts0 ++ tok :: ts1) ++ ts2) by (by rewrite <-app_assoc).
        apply Hb. by apply Term_binop.
    + apply post_ret; [done|]. intros ts0 H0. by rewrite app_nil_r.
  - intros p Hp Hfuel. unfold_parser.
    destruct (lookup_before_eof p Hp) as [tok Htok].
    rewrite (bind__current _ _ _ Htok). case_bool_decide as Hnum.
    { rewrite (bind__advance _ _ _ Htok).
      apply (post_consume _
        (λ ts n, ts = [] ∧ n = NumberNode (value tok)) _ tok); [done| |].
      { intros ts a [-> ->]. by apply Factor_number. }
      apply post_ret; [|done]. eapply before_eof; [done..|congruence]. }
    case_bool_decide as Hlp.
    2:{ apply (post_raise _ _ _ tok); [done|]. right. split; [done|].
        intros H. by elem_of_cases H. }
    rewrite (bind__eat _ _ _ _ Htok), bool_decide_false by (by intros ?).
    assert (p + 1 ≤ k)%nat by (eapply before_eof; [done..|congruence]).
    apply (post_consume _
      (λ ts n, ∃ ts' rparen inner, ts = ts' ++ [rparen] ∧ Expr ts' inner
                 ∧ type rparen = RPAREN ∧ n = GroupNode inner) _ tok);
      [done| |].
    { intros ts a (ts' & rparen & inner & -> & ? & ? & ->).
      by apply Factor_group. }
    apply (post_bind Expr
      (λ inner ts n, ∃ rparen, ts = [rparen] ∧ type rparen = RPAREN
                       ∧ n = GroupNode inner)).
    + apply IHe; lia.
    + intros inner p1 Hp1.
      destruct (lookup_before_eof p1) as [tok1 Htok1]; [lia|].
      rewrite (bind__eat _ _ _ _ Htok1). case_bool_decide as Hrp.
      * apply (post_raise _ _ _ tok1); [done|]. left. exists RPAREN.
        split_and!; [done| |done]. by left.
      * apply (post_consume _ (λ ts n, ts = [] ∧ n = GroupNode inner) _ tok1);
          [done| |].
        { intros ts a [-> ->]. by exists tok1. }
        apply post_ret; [|done]. eapply before_eof; [|done|congruence]. lia.
    + intros ts1 ts2 inner b Hin (rparen & -> & ? & ->).
      by exists ts1, rparen, inner.
Qed.

End parser.

(** The outcome of [Parser.parse] on tokens that hold an [EOF]: the tree
    of the expression that stands before an [EOF], or a [ParseError] on the
    token at which the parser stopped. *)
Lemma Parser_parse_spec toks :
  (∃ tok, tok ∈ toks ∧ type tok = EOF) →
  match Parser.parse (Parser.__init__ toks) with
  | (Ok tree, self) =>
    ∃ body eof rest, toks = body ++ eof :: rest ∧ type eof = EOF
                     ∧ Expr body tree
                     ∧ self = Parser.mk toks (S (length body))
  | (Raise e, self) =>
    ∃ p tok, self = Parser.mk toks p ∧ toks !! p = Some tok ∧ raised_on e tok
  | (OutOfFuel, _) => False
  end.
Proof.
  intros (eof & [k Hk]%list_elem_of_lookup & Heof).
  unfold Parser.parse, Parser.parse_with, Parser.__init__.
  cbn [Parser.tokens].
  pose proof (parse_correct toks k eof Hk Heof (3 * length toks + 3))
    as (He & _).
  specialize (He 0%nat). unfold Parser.bind at 1.
  destruct (Parser.parse_expr _ _) as [[tree|e|] [toks1 p1]];
    simpl in He.
  - destruct He as (-> & Hp1 & ts & Hdrop & -> & Hexpr).
    { lia. } { apply lookup_lt_Some in Hk. lia. }
    destruct (lookup_before_eof toks k eof Hk (length ts)) as [tok Htok];
      [done|].
    rewrite (bind__eat toks _ _ _ _ Htok). case_bool_decide as Hty.
    + exists (length ts), tok. split_and!; [done..|].
      left. exists EOF. split_and!; [done| |done]. by right; left.
    + unfold Parser.ret.
      exists ts, tok, (drop (S (length ts)) toks). split_and!; [|done..| ].
      * rewrite drop_0 in Hdrop. rewrite Hdrop at 1. f_equal.
        by apply drop_S.
      * do 2 f_equal. lia.
  - destruct He as (-> & _ & tok & ? & ?).
    { lia. } { apply lookup_lt_Some in Hk. lia. }
    by exists p1, tok.
  - apply He; [lia|]. apply lookup_lt_Some in Hk. lia.
Qed.

(** ** Sentences of the grammar *)

Lemma grammar_numbers_nonempty :
  (∀ ts node, Expr ts node → Forall token_wf ts → numbers_nonempty node)
  ∧ (∀ ts node, Term ts node → Forall token_wf ts → numbers_nonempty node)
  ∧ (∀ ts node, Factor ts node → Forall token_wf ts → numbers_nonempty node).
Proof.
  apply grammar_ind; simpl.
  - auto.
  - intros ts1 op ts2 l r _ IHl _ _ IHr [??]%Forall_app.
    split; [by apply IHl|]. apply IHr. by eapply Forall_cons_1.
  - auto.
  - intros ts1 op ts2 l r _ IHl _ _ IHr [??]%Forall_app.
    split; [by apply IHl|]. apply IHr. by eapply Forall_cons_1.
  - intros tok _ [Htok%token_wf_type _]%Forall_cons_1. apply Htok.
  - intros lp ts rp inner _ _ IH _ [_ [??]%Forall_app]%Forall_cons_1.
    by apply IH.
Qed.

(** ** The pipeline *)

Lemma tokenize_Ok latex toks :
  tokenize latex = Ok toks →
  ∃ body, toks = body ++ [mkToken EOF []] ∧ Forall token_wf body
          ∧ Forall supported (normalized latex).
Proof.
  intros H. pose proof (tokenize_spec latex) as Hspec. rewrite H in Hspec.
  destruct Hspec as (body & -> & ? & Hsup). rewrite drop_0 in Hsup.
  by exists body.
Qed.

Lemma parse_tokenized body :
  Forall token_wf body →
  match Parser.parse (Parser.__init__ (body ++ [mkToken EOF []])) with
  | (Ok tree, _) => Expr body tree
  | (Raise e, self) =>
    ∃ p tok, self = Parser.mk (body ++ [mkToken EOF []]) p
             ∧ (body ++ [mkToken EOF []]) !! p = Some tok ∧ raised_on e tok
  | (OutOfFuel, _) => False
  end.
Proof.
  intros Hwf. pose proof (Parser_parse_spec (body ++ [mkToken EOF []])) as H.
  destruct (Parser.parse _) as [[tree|e|] self].
  - destruct H as (body' & eof & rest & Heq & Heof & Hexpr & _).
    { exists (mkToken EOF []). split; [|done]. apply elem_of_app. right.
      by left. }
    assert (length body ≤ length body')%nat as Hlen.
    { destruct (decide (length body' < length body)%nat) as [Hlt|]; [|lia].
      assert ((body ++ [mkToken EOF []]) !! length body' = Some eof) as Hl.
      { rewrite Heq. by apply list_lookup_middle. }
      rewrite lookup_app_l in Hl by done.
      rewrite Forall_lookup in Hwf. apply Hwf in Hl.
      by apply token_wf_type in Hl as [? _]. }
    pose proof (f_equal length Heq) as Hl.
    rewrite !length_app in Hl. simpl in Hl.
    assert (length body' = length body) as Hl' by lia.
    apply app_inj_1 in Heq as [<- _]; done.
  - apply H. exists (mkToken EOF []). split; [|done]. apply elem_of_app.
    right. by left.
  - apply H. exists (mkToken EOF []). split; [|done]. apply elem_of_app.
    right. by left.
Qed.

Lemma parse_Ok latex toks tree :
  tokenize latex = Ok toks → parse toks = Ok tree →
  ∃ body, toks = body ++ [mkToken EOF []] ∧ Forall token_wf body
          ∧ Expr body tree.
Proof.
  intros (body & -> & Hwf & _)%tokenize_Ok Hparse. exists body.
  split_and!; [done..|]. pose proof (parse_tokenized body Hwf) as H.
  unfold parse in Hparse. destruct (Parser.parse _) as [[tree'|e|] self];
    simpl in Hparse; by simplify_eq.
Qed.

(** C1. On every input on which the conversion succeeds, every maximal run
    of numeral symbols of the output is immediately preceded by exactly one
    number indicator, and an indicator stands nowhere else. *)
Theorem convert_indicator_discipline latex out :
  latex_to_korean_braille latex = Ok out → indicator_discipline out.
Proof.
  unfold latex_to_korean_braille. intros H. inv_bind H.
  destruct (parse_Ok _ _ _ Ha Ha0) as (body & -> & Hwf & Hexpr).
  apply well_marked_discipline, (_visit_well_marked a0); [|done].
  by eapply (proj1 grammar_numbers_nonempty).
Qed.

Lemma convert_indicator_discipline_witness :
  latex_to_korean_braille (py "(12+3)*4") = Ok (py "⠦⠼⠁⠃⠢⠼⠉⠴⠡⠼⠙")
  ∧ indicator_discipline (py "⠦⠼⠁⠃⠢⠼⠉⠴⠡⠼⠙").
Proof.
  split; [by vm_compute|].
  apply (convert_indicator_discipline (py "(12+3)*4")). by vm_compute.
Defined.

(** C9. In a traversal started by [convert], every call of [_visit]
    receives [need_indicator = True]; and the output of a conversion that
    succeeds holds exactly one indicator for each [NumberNode] of the
    tree. *)
Theorem need_indicator_always_true node :
  Forall (λ need_indicator, need_indicator = true)
    (BrailleVisitor._visit_flags node true)
  ∧ ∀ out, BrailleVisitor.convert node = Ok out →
           count indicator out = number_nodes node.
Proof.
  split; [|apply _visit_count].
  induction node as [value|op l IHl r IHr|expr IH]; simpl.
  - by repeat constructor.
  - constructor; [done|]. by apply Forall_app.
  - by constructor.
Qed.

Lemma need_indicator_always_true_witness :
  BrailleVisitor._visit_flags
    (BinaryOpNode (py "*")
       (GroupNode (BinaryOpNode (py "+") (NumberNode (py "2"))
                     (NumberNode (py "3"))))
       (NumberNode (py "4"))) true
  = [true; true; true; true; true; true]
  ∧ count indicator (py "⠦⠼⠃⠢⠼⠉⠴⠡⠼⠙") = 3%nat.
Proof.
  split; [done|].
  apply (need_indicator_always_true
    (BinaryOpNode (py "*")
       (GroupNode (BinaryOpNode (py "+") (NumberNode (py "2"))
                     (NumberNode (py "3"))))
       (NumberNode (py "4")))).
  by vm_compute.
Defined.

(** What may follow a right parenthesis in a sentence: no number and no
    left parenthesis. *)
Definition follows_ok (a b : Token) : Prop :=
  type a = RPAREN → type b ∉ [NUMBER; LPAREN].

Lemma grammar_follows :
  (∀ ts node, Expr ts node → adjacent follows_ok ts)
  ∧ (∀ ts node, Term ts node → adjacent follows_ok ts)
  ∧ (∀ ts node, Factor ts node → adjacent follows_ok ts).
Proof.
  assert (∀ ts1 (op : Token) ts2 (tys : list TokenType),
    type op ∈ tys → tys ⊆ [PLUS; MINUS; STAR; SLASH] →
    adjacent follows_ok ts1 → adjacent follows_ok ts2 →
    adjacent follows_ok (ts1 ++ op :: ts2)) as Hop.
  { intros ts1 op ts2 tys Hin Hsub H1 H2. apply Hsub in Hin.
    apply adjacent_app; [done| |].
    - apply (adjacent_app _ [op]); [constructor|done|].
      intros a b [= <-] _ Ha. rewrite Ha in Hin. by elem_of_cases Hin.
    - intros a b _ [= <-] _ Hb. elem_of_cases Hb; rewrite Hb in Hin;
        by elem_of_cases Hin. }
  apply grammar_ind.
  - auto.
  - intros ts1 op ts2 l r _ IHl Hin _ IHr.
    apply (Hop _ _ _ _ Hin); [|done..]. intros x Hx.
    elem_of_cases Hx; subst; repeat constructor.
  - auto.
  - intros ts1 op ts2 l r _ IHl Hin _ IHr.
    apply (Hop _ _ _ _ Hin); [|done..]. intros x Hx.
    elem_of_cases Hx; subst; repeat constructor.
  - constructor.
  - intros lp ts rp inner Hlp _ IH Hrp.
    apply (adjacent_app _ [lp]); [constructor| |].
    + apply adjacent_app; [done|constructor|].
      intros a b _ [= <-] _ Hb. rewrite Hrp in Hb. by elem_of_cases Hb.
    + intros a b [= <-] _ Ha. congruence.
Qed.

(** A sentence ends with a number or a right parenthesis. *)
Lemma grammar_last :
  (∀ ts node, Expr ts node →
     ∃ tok, last ts = Some tok ∧ type tok ∈ [NUMBER; RPAREN])
  ∧ (∀ ts node, Term ts node →
     ∃ tok, last ts = Some tok ∧ type tok ∈ [NUMBER; RPAREN])
  ∧ (∀ ts node, Factor ts node →
     ∃ tok, last ts = Some tok ∧ type tok ∈ [NUMBER; RPAREN]).
Proof.
  apply grammar_ind.
  - auto.
  - intros ts1 op ts2 l r _ _ _ _ (tok & Hl & Hty). exists tok.
    split; [|done]. rewrite last_app_cons, last_cons. by rewrite Hl.
  - auto.
  - intros ts1 op ts2 l r _ _ _ _ (tok & Hl & Hty). exists tok.
    split; [|done]. rewrite last_app_cons, last_cons. by rewrite Hl.
  - intros tok Hty. exists tok. split; [done|]. rewrite Hty. by left.
  - intros lp ts rp inner _ _ _ Hty. exists rp. split.
    + by rewrite last_cons, last_snoc.
    + rewrite Hty. by right; left.
Qed.

(** The shape of the trees of the grammar, by the operators they hold: the
    operands of [*] and [/] are no bare sum or difference, and the right
    operand of an operator is no bare operation of its own level. *)
Inductive expr_shape : Node → Prop :=
  | expr_shape_term node : term_shape node → expr_shape node
  | expr_shape_binop op node_left node_right :
      op ∈ [py "+"; py "-"] → expr_shape node_left →
      term_shape node_right →
      expr_shape (BinaryOpNode op node_left node_right)
with term_shape : Node → Prop :=
  | term_shape_factor node : factor_shape node → term_shape node
  | term_shape_binop op node_left node_right :
      op ∈ [py "*"; py "/"] → term_shape node_left →
      factor_shape node_right →
      term_shape (BinaryOpNode op node_left node_right)
with factor_shape : Node → Prop :=
  | factor_shape_number value : factor_shape (NumberNode value)
  | factor_shape_group expr : expr_shape expr → factor_shape (GroupNode expr).

Lemma token_wf_value tok :
  token_wf tok → type tok ∈ [PLUS; MINUS; STAR; SLASH] →
  (type tok, value tok)
  ∈ [(PLUS, py "+"); (MINUS, py "-"); (STAR, py "*"); (SLASH, py "/")].
Proof.
  destruct tok as [ty v]. unfold token_wf; simpl.
  intros [(-> & _)|(ch & -> & H)] Hty; [by elem_of_cases Hty|].
  apply _CHAR_MAP_lookup in H.
  elem_of_cases H; simplify_eq; try (by elem_of_cases Hty);
    vm_compute; repeat constructor.
Qed.

Lemma grammar_shape :
  (∀ ts node, Expr ts node → Forall token_wf ts → expr_shape node)
  ∧ (∀ ts node, Term ts node → Forall token_wf ts → term_shape node)
  ∧ (∀ ts node, Factor ts node → Forall token_wf ts → factor_shape node).
Proof.
  apply grammar_ind.
  - intros. by apply expr_shape_term; auto.
  - intros ts1 op ts2 l r _ IHl Hin _ IHr
      [Hwf1 [Hop Hwf2]%Forall_cons_1]%Forall_app.
    apply expr_shape_binop; [|by auto..].
    apply token_wf_value in Hop.
    + elem_of_cases Hop; injection Hop as Hty Hval; rewrite Hty in Hin;
        try (by elem_of_cases Hin); rewrite Hval; compute_done.
    + elem_of_cases Hin; rewrite Hin; repeat constructor.
  - intros. by apply term_shape_factor; auto.
  - intros ts1 op ts2 l r _ IHl Hin _ IHr
      [Hwf1 [Hop Hwf2]%Forall_cons_1]%Forall_app.
    apply term_shape_binop; [|by auto..].
    apply token_wf_value in Hop.
    + elem_of_cases Hop; injection Hop as Hty Hval; rewrite Hty in Hin;
        try (by elem_of_cases Hin); rewrite Hval; compute_done.
    + elem_of_cases Hin; rewrite Hin; repeat constructor.
  - constructor.
  - intros lp ts rp inner _ _ IH _ [_ [??]%Forall_app]%Forall_cons_1.
    constructor. by apply IH.
Qed.

(** Lex, then parse. *)
Definition parse_latex (latex : str) : Result Node :=
  tokens ← tokenize latex;
  parse tokens.

(** C3. The parser builds left-associative trees and renders precedence by
    call depth: every tree it returns has the shape of the grammar;
    [1 - 2 - 3] parses as [(1 - 2) - 3] and [2 + 3 * 4] as [2 + (3 * 4)],
    and the structure echo shows them as such. *)
Theorem parser_left_associative_precedence :
  (∀ latex tree, parse_latex latex = Ok tree → expr_shape tree)
  ∧ parse_latex (py "1 - 2 - 3")
    = Ok (BinaryOpNode (py "-")
            (BinaryOpNode (py "-") (NumberNode (py "1")) (NumberNode (py "2")))
            (NumberNode (py "3")))
  ∧ debug_echo (py "1 - 2 - 3") = Ok (py "((1 - 2) - 3)")
  ∧ parse_latex (py "2 + 3 * 4")
    = Ok (BinaryOpNode (py "+")
            (NumberNode (py "2"))
            (BinaryOpNode (py "*") (NumberNode (py "3")) (NumberNode (py "4"))))
  ∧ debug_echo (py "2 + 3 * 4") = Ok (py "(2 + (3 * 4))").
Proof.
  split_and!; [|by vm_compute..].
  intros latex tree H. unfold parse_latex in H. inv_bind H.
  destruct (parse_Ok _ _ _ Ha H) as (body & -> & Hwf & Hexpr).
  by eapply (proj1 grammar_shape).
Qed.

Lemma parser_left_associative_precedence_witness :
  expr_shape
    (BinaryOpNode (py "-")
       (BinaryOpNode (py "-") (NumberNode (py "1")) (NumberNode (py "2")))
       (NumberNode (py "3"))).
Proof.
  apply (proj1 parser_left_associative_precedence (py "1 - 2 - 3")).
  by vm_compute.
Defined.

(** C8. A number that immediately follows a right parenthesis is rejected
    with a [ParseError]; on [(3)4] it is the [EOF] check of [parse] that
    fails, on the number left unconsumed after the complete expression
    [(3)]. *)
Theorem number_after_rparen_rejected :
  (∀ latex toks i a b,
     tokenize latex = Ok toks →
     toks !! i = Some a → toks !! S i = Some b →
     type a = RPAREN → type b = NUMBER →
     ∃ msg, parse toks = Raise (ParseError msg))
  ∧ tokenize (py "(3)4")
    = Ok [mkToken LPAREN (py "("); mkToken NUMBER (py "3");
          mkToken RPAREN (py ")"); mkToken NUMBER (py "4"); mkToken EOF []]
  ∧ Parser.parse
      (Parser.__init__
         [mkToken LPAREN (py "("); mkToken NUMBER (py "3");
          mkToken RPAREN (py ")"); mkToken NUMBER (py "4"); mkToken EOF []])
    = (Raise (ParseError (Expected EOF (mkToken NUMBER (py "4")))),
       Parser.mk
         [mkToken LPAREN (py "("); mkToken NUMBER (py "3");
          mkToken RPAREN (py ")"); mkToken NUMBER (py "4"); mkToken EOF []]
         3)
  ∧ latex_to_korean_braille (py "(3)4")
    = Raise (ParseError (Expected EOF (mkToken NUMBER (py "4")))).
Proof.
  split_and!; [|by vm_compute..].
  intros latex toks i a b (body & -> & Hwf & _)%tokenize_Ok Ha Hb Hta Htb.
  pose proof (parse_tokenized body Hwf) as H. unfold parse.
  destruct (Parser.parse _) as [[tree|e|] self]; simpl; [| |done].
  - exfalso. apply (proj1 grammar_follows) in H.
    destruct (decide (S i < length body)%nat) as [Hlt|Hge].
    + rewrite lookup_app_l in Ha, Hb by lia.
      destruct (adjacent_lookup _ _ _ _ _ H Ha Hb Hta). rewrite Htb. by left.
    + pose proof (lookup_lt_Some _ _ _ Hb) as Hlen.
      rewrite length_app in Hlen. simpl in Hlen.
      assert (S i = length body) as Hi by lia.
      rewrite Hi in Hb. rewrite list_lookup_middle in Hb by done.
      by simplify_eq.
  - destruct H as (p & tok & _ & _ & [(? & -> & _)|[-> _]]); by eexists.
Qed.

Lemma number_after_rparen_rejected_witness :
  ∃ msg,
    parse [mkToken LPAREN (py "("); mkToken NUMBER (py "3");
           mkToken RPAREN (py ")"); mkToken NUMBER (py "4"); mkToken EOF []]
    = Raise (ParseError msg).
Proof.
  eapply (proj1 number_after_rparen_rejected (py "(3)4") _ 2%nat);
    by vm_compute.
Defined.

(** ** Inputs that normalize to nothing *)

Lemma lstrip_nil s : lstrip s = [] ↔ Forall (λ c, isspace c = true) s.
Proof.
  induction s as [|c s IH]; simpl; [done|].
  destruct (isspace c) eqn:Hc.
  - rewrite IH. split; [by constructor|by intros [_ ?]%Forall_cons_1].
  - split; [done|]. intros [? _]%Forall_cons_1. congruence.
Qed.

Lemma lstrip_head s c : head (lstrip s) = Some c → isspace c = false.
Proof.
  induction s as [|x s IH]; simpl; [done|].
  destruct (isspace x) eqn:Hx; [done|]. by intros [= <-].
Qed.

Lemma strip_nil s : strip s = [] ↔ Forall (λ c, isspace c = true) s.
Proof.
  unfold strip, rstrip. split.
  - intros H. apply (f_equal reverse) in H. rewrite reverse_involutive in H.
    simpl in H. apply lstrip_nil, Forall_reverse in H.
    rewrite reverse_involutive in H. apply lstrip_nil.
    pose proof (lstrip_head s) as Hhead.
    destruct (lstrip s) as [|c s']; [done|].
    apply Forall_cons_1 in H as [Hc _]. by rewrite (Hhead c) in Hc.
  - intros H. apply lstrip_nil in H. by rewrite H.
Qed.

(** The normalized form of an input is empty exactly when the input holds
    nothing but dollar signs and whitespace. *)
Lemma normalized_nil latex :
  normalized latex = []
  ↔ Forall (λ c, c = char_of "$" ∨ isspace c = true) latex.
Proof.
  unfold normalized, Lexer.__init__; simpl.
  rewrite strip_nil, !Forall_forall. unfold replace_with_empty. split.
  - intros H c Hc. destruct (decide (c = char_of "$")) as [|Hne]; [by left|].
    right. apply H. by apply list_elem_of_filter.
  - intros H c [Hne Hc]%list_elem_of_filter. by destruct (H c Hc).
Qed.

(** C10. On an input whose normalized form is empty, [tokenize] returns
    exactly [[EOF]], and the conversion raises the [ParseError] of the
    factor rule on that [EOF]: no [LexError], and no output. *)
Theorem empty_input_raises_ParseError latex :
  normalized latex = [] →
  tokenize latex = Ok [mkToken EOF []]
  ∧ latex_to_korean_braille latex
    = Raise (ParseError (ExpectedFactor (mkToken EOF []))).
Proof.
  intros H.
  assert (tokenize latex = Ok [mkToken EOF []]) as Htok.
  { unfold tokenize, Lexer.tokenize, normalized in *.
    destruct (Lexer.__init__ latex) as [text p] eqn:Hinit.
    assert (p = 0%nat) as -> by (by injection Hinit).
    simpl in *. by subst. }
  split; [done|]. unfold latex_to_korean_braille. by rewrite Htok.
Qed.

Lemma empty_input_raises_ParseError_witness :
  normalized (py " $ $  ") = []
  ∧ tokenize (py " $ $  ") = Ok [mkToken EOF []]
  ∧ latex_to_korean_braille (py " $ $  ")
    = Raise (ParseError (ExpectedFactor (mkToken EOF []))).
Proof.
  split; [by vm_compute|].
  apply (empty_input_raises_ParseError (py " $ $  ")). by vm_compute.
Defined.

(** ** Brackets *)

(** [s] without the two bracket symbols. *)
Definition without_brackets (s : str) : str :=
  filter (λ c, c ∉ BrailleVisitor.LPAREN_BRAILLE ++ BrailleVisitor.RPAREN_BRAILLE) s.

(** C4, as stated, fails: the output for [(2+3)*4] without its two bracket
    symbols is not the output for [2+3], and the two outputs differ by five
    symbols, not by two. *)
Lemma brackets_only_difference_counterexample :
  ¬ (∀ out1 out2,
       latex_to_korean_braille (py "(2+3)*4") = Ok out1 →
       latex_to_korean_braille (py "2+3") = Ok out2 →
       without_brackets out1 = out2)
  ∧ ¬ (∀ out1 out2,
       latex_to_korean_braille (py "(2+3)*4") = Ok out1 →
       latex_to_korean_braille (py "2+3") = Ok out2 →
       length out1 = (length out2 + 2)%nat).
Proof.
  split; intros H;
    specialize (H (py "⠦⠼⠃⠢⠼⠉⠴⠡⠼⠙") (py "⠼⠃⠢⠼⠉"));
    by vm_compute in H; specialize (H eq_refl eq_refl).
Qed.

(** C4, amended. The output for [(2+3)*4] is the left bracket, the output
    for [2+3], the right bracket, and then the encoding of [*4]: the
    encoding of its first operand is the output for [2+3] between the two
    bracket symbols. *)
Theorem brackets_surround_first_operand :
  ∃ out times four,
    latex_to_korean_braille (py "2+3") = Ok out
    ∧ BrailleVisitor.OP_MAP !! py "*" = Some times
    ∧ BrailleVisitor._number_to_braille (py "4") true = Ok four
    ∧ latex_to_korean_braille (py "(2+3)*4")
      = Ok (BrailleVisitor.LPAREN_BRAILLE ++ out
            ++ BrailleVisitor.RPAREN_BRAILLE ++ times ++ four).
Proof.
  exists (py "⠼⠃⠢⠼⠉"), (py "⠡"), (py "⠼⠙"). by vm_compute.
Qed.

(** ** Characters the lexer does not accept *)

Global Instance supported_dec c : Decision (supported c).
Proof. unfold supported. apply _. Defined.

Lemma first_unsupported (l : str) :
  (∃ c, c ∈ l ∧ ¬ supported c) →
  ∃ pre ch post, l = pre ++ ch :: post ∧ Forall supported pre ∧ ¬ supported ch.
Proof.
  induction l as [|x l IH]; intros (c & Hc & Hns).
  { by apply elem_of_nil in Hc. }
  destruct (decide (supported x)) as [Hx|Hx].
  - destruct IH as (pre & ch & post & -> & Hpre & Hch).
    { exists c. split; [|done]. apply elem_of_cons in Hc as [->|]; done. }
    exists (x :: pre), ch, post. split_and!; [done|by constructor|done].
  - by exists [], x, l.
Qed.

Lemma first_unsupported_unique (pre pre' post post' : str) ch ch' :
  pre ++ ch :: post = pre' ++ ch' :: post' →
  Forall supported pre → ¬ supported ch →
  Forall supported pre' → ¬ supported ch' →
  pre = pre' ∧ ch = ch' ∧ post = post'.
Proof.
  intros Heq Hpre Hch. revert pre' Heq.
  induction Hpre as [|x pre Hx Hpre IH]; intros pre' Heq Hpre' Hch'.
  - destruct pre' as [|x' pre']; simplify_eq/=; [done|].
    by apply Forall_cons_1 in Hpre' as [? _].
  - destruct pre' as [|x' pre']; injection Heq as -> Heq; [done|].
    apply Forall_cons_1 in Hpre' as [_ Hpre'].
    by destruct (IH pre' Heq Hpre' Hch') as (-> & -> & ->).
Qed.

(** The lexer raises on the first character of the normalized input that is
    neither whitespace nor a digit of [str.isdigit] nor one of the six
    characters of [_CHAR_MAP], and reports that character, its index and
    the normalized input. *)
Lemma tokenize_unsupported latex :
  (∃ c, c ∈ normalized latex ∧ ¬ supported c) →
  ∃ pre ch post,
    normalized latex = pre ++ ch :: post
    ∧ Forall supported pre ∧ ¬ supported ch
    ∧ tokenize latex
      = Raise (LexError ch (length pre) (length (normalized latex))
                 (normalized latex)).
Proof.
  intros Hex. destruct (first_unsupported _ Hex)
    as (pre & ch & post & Heq & Hpre & Hch).
  exists pre, ch, post. split_and!; [done..|].
  pose proof (tokenize_spec latex) as Hspec.
  destruct (tokenize latex) as [out|e|]; simpl in Hspec; [| |done].
  - destruct Hspec as (_ & _ & _ & Hall). rewrite drop_0, Heq in Hall.
    apply Forall_app in Hall as [_ [? _]%Forall_cons_1]. done.
  - destruct Hspec as (pre' & ch' & post' & Heq' & Hpre' & Hch' & ->).
    rewrite drop_0, Heq in Heq'.
    by destruct (first_unsupported_unique _ _ _ _ _ _ Heq' Hpre Hch Hpre' Hch')
      as (-> & -> & ->).
Qed.

Example tokenize_ampersand :
  tokenize (py "3 & 4") = Raise (LexError (char_of "&") 2 5 (py "3 & 4")).
Proof. by vm_compute. Qed.

(** C7, at the input [²] (U+00B2, SUPERSCRIPT TWO): the character is not
    one of the digits [0] to [9], not one of [+ - * / ( )], not whitespace
    and not a dollar sign, but [str.isdigit] holds of it; so the lexer does
    not raise [LexError] but returns it as a NUMBER token, and the
    conversion fails later with the [KeyError] of [DIGIT_MAP]. *)
Theorem superscript_digit_not_rejected :
  ¬ ascii_digit (char_of "²")
  ∧ Lexer._CHAR_MAP !! char_of "²" = None
  ∧ isspace (char_of "²") = false
  ∧ char_of "²" ≠ char_of "$"
  ∧ isdigit (char_of "²") = true
  ∧ tokenize (py "²") = Ok [mkToken NUMBER (py "²"); mkToken EOF []]
  ∧ latex_to_korean_braille (py "²") = Raise (KeyError (py "²")).
Proof.
  split_and!; try (by vm_compute).
  unfold ascii_digit. vm_compute. intros [_ H]. by apply H.
Qed.

(** ** Inputs made of the digits [0] to [9] *)

Lemma ascii_digit_cases c :
  ascii_digit c →
  c ∈ [0x30; 0x31; 0x32; 0x33; 0x34; 0x35; 0x36; 0x37; 0x38; 0x39].
Proof.
  intros [H1 H2].
  assert (c = 0x30 ∨ c = 0x31 ∨ c = 0x32 ∨ c = 0x33 ∨ c = 0x34 ∨ c = 0x35
          ∨ c = 0x36 ∨ c = 0x37 ∨ c = 0x38 ∨ c = 0x39) by lia.
  repeat rewrite elem_of_cons. tauto.
Qed.

Lemma ascii_digit_class c :
  ascii_digit c →
  isdigit c = true ∧ isspace c = false ∧ c ≠ char_of "$".
Proof.
  intros H%ascii_digit_cases. elem_of_cases H; subst; by vm_compute.
Qed.

Lemma join_digits_ascii ds :
  Forall ascii_digit ds → ∃ syms, BrailleVisitor.join_digits ds = Ok syms.
Proof.
  induction 1 as [|d ds Hd _ [syms IH]]; [by exists []|]. simpl.
  destruct (DIGIT_MAP_ascii d Hd) as [b Hb].
  unfold BrailleVisitor.getitem. rewrite Hb, IH. simpl. by eexists.
Qed.

Lemma lstrip_id s :
  (∀ c, head s = Some c → isspace c = false) → lstrip s = s.
Proof. destruct s as [|c s]; [done|]. intros H. simpl. by rewrite (H c). Qed.

Lemma strip_id s :
  (∀ c, head s = Some c → isspace c = false) →
  (∀ c, last s = Some c → isspace c = false) →
  strip s = s.
Proof.
  intros Hh Hl. unfold strip, rstrip. rewrite (lstrip_id s) by done.
  rewrite lstrip_id; [by rewrite reverse_involutive|].
  intros c. rewrite head_reverse. apply Hl.
Qed.

Lemma replace_with_empty_id old s :
  Forall (λ c, c ≠ old) s → replace_with_empty old s = s.
Proof.
  unfold replace_with_empty. induction 1 as [|c s Hc _ IH]; [done|].
  by rewrite filter_cons_True, IH.
Qed.

Lemma tokenize_unfold latex :
  tokenize latex
  = Lexer.tokenize_loop (length (normalized latex) + 2)
      (Lexer.mk (normalized latex) 0) [].
Proof. done. Qed.

Lemma tokenize_digits latex ds :
  normalized latex = ds → ds ≠ [] → Forall ascii_digit ds →
  tokenize latex = Ok [mkToken NUMBER ds; mkToken EOF []].
Proof.
  intros Hnorm Hne Hds. rewrite tokenize_unfold, Hnorm.
  replace (length ds + 2)%nat with (S (S (length ds))) by lia.
  rewrite (tokenize_loop_number _ _ _ _ [] ds []).
  - rewrite (tokenize_loop_eof _ _ _ _ []);
      [done| |done|destruct ds; [done|simpl; lia]].
    simpl. rewrite drop_ge; [done|lia].
  - by rewrite drop_0, app_nil_r.
  - done.
  - eapply Forall_impl; [done|]. by intros c (? & _)%ascii_digit_class.
  - intros c Hc. apply head_Some_elem_of in Hc.
    rewrite Forall_forall in Hds. by apply Hds, ascii_digit_class in Hc as (_ & ? & _).
  - done.
  - done.
  - simpl. lia.
Qed.

(** C6. On an input that holds nothing but digits [0] to [9], the lexer
    returns the whole input as one NUMBER token, unchanged, and the
    conversion returns the indicator followed by the symbol of each digit,
    in order, and nothing else. *)
Theorem digits_only_input ds :
  ds ≠ [] → Forall ascii_digit ds →
  tokenize ds = Ok [mkToken NUMBER ds; mkToken EOF []]
  ∧ ∃ syms,
      Forall2 (λ d c, BrailleVisitor.DIGIT_MAP !! d = Some [c]) ds syms
      ∧ latex_to_korean_braille ds
        = Ok (BrailleVisitor.NUMBER_INDICATOR ++ syms).
Proof.
  intros Hne Hds.
  assert (normalized ds = ds) as Hnorm.
  { unfold normalized, Lexer.__init__; simpl.
    rewrite replace_with_empty_id.
    2:{ eapply Forall_impl; [done|]. by intros c (_ & _ & ?)%ascii_digit_class. }
    rewrite Forall_forall in Hds.
    apply strip_id; intros c Hc.
    - apply head_Some_elem_of in Hc.
      by apply Hds, ascii_digit_class in Hc as (_ & ? & _).
    - apply last_Some_elem_of in Hc.
      by apply Hds, ascii_digit_class in Hc as (_ & ? & _). }
  pose proof (tokenize_digits ds ds Hnorm Hne Hds) as Htok.
  split; [done|]. destruct (join_digits_ascii ds Hds) as [syms Hsyms].
  exists syms. split; [by apply join_digits_Ok|].
  unfold latex_to_korean_braille. rewrite Htok. simpl.
  unfold BrailleVisitor.convert; simpl.
  unfold BrailleVisitor._number_to_braille. by rewrite Hsyms.
Qed.

Lemma digits_only_input_witness :
  tokenize (py "007") = Ok [mkToken NUMBER (py "007"); mkToken EOF []]
  ∧ ∃ syms,
      Forall2 (λ d c, BrailleVisitor.DIGIT_MAP !! d = Some [c]) (py "007") syms
      ∧ latex_to_korean_braille (py "007")
        = Ok (BrailleVisitor.NUMBER_INDICATOR ++ syms).
Proof.
  apply (digits_only_input (py "007")); [done|].
  repeat constructor; by vm_compute.
Defined.

Example convert_007 : latex_to_korean_braille (py "007") = Ok (py "⠼⠚⠚⠛").
Proof. by vm_compute. Qed.

(** ** Two numbers and an operator *)

Lemma isspace_cases c :
  isspace c = true →
  c ∈ [0x9; 0xA; 0xB; 0xC; 0xD; 0x1C; 0x1D; 0x1E; 0x1F; 0x20; 0x85; 0xA0;
       0x1680; 0x2000; 0x2001; 0x2002; 0x2003; 0x2004; 0x2005; 0x2006;
       0x2007; 0x2008; 0x2009; 0x200A; 0x2028; 0x2029; 0x202F; 0x205F;
       0x3000].
Proof.
  unfold isspace, in_ranges. cbn [existsb fst snd].
  rewrite !orb_true_iff, !andb_true_iff, !N.leb_le.
  intros H. repeat rewrite elem_of_cons. lia.
Qed.

Lemma isspace_not_isdigit c : isspace c = true → isdigit c = false.
Proof. intros H%isspace_cases. elem_of_cases H; subst; by vm_compute. Qed.

Lemma operator_class op :
  op ∈ [char_of "+"; char_of "-"; char_of "*"; char_of "/"] →
  isspace op = false ∧ isdigit op = false
  ∧ ∃ ty sym, Lexer._CHAR_MAP !! op = Some ty
              ∧ ty ∈ [PLUS; MINUS; STAR; SLASH]
              ∧ BrailleVisitor.OP_MAP !! [op] = Some sym.
Proof.
  intros H. elem_of_cases H; subst; (split_and!; [by vm_compute..|]).
  - exists PLUS, (py "⠢"). split_and!; [by vm_compute| |by vm_compute].
    compute_done.
  - exists MINUS, (py "⠔"). split_and!; [by vm_compute| |by vm_compute].
    compute_done.
  - exists STAR, (py "⠡"). split_and!; [by vm_compute| |by vm_compute].
    compute_done.
  - exists SLASH, (py "⠌⠌"). split_and!; [by vm_compute| |by vm_compute].
    compute_done.
Qed.

Lemma tokenize_binary latex A ws1 op ty ws2 B :
  normalized latex = A ++ ws1 ++ op :: ws2 ++ B →
  A ≠ [] → B ≠ [] → Forall ascii_digit A → Forall ascii_digit B →
  Forall (λ c, isspace c = true) ws1 → Forall (λ c, isspace c = true) ws2 →
  isspace op = false → isdigit op = false →
  Lexer._CHAR_MAP !! op = Some ty →
  tokenize latex
  = Ok [mkToken NUMBER A; mkToken ty [op]; mkToken NUMBER B; mkToken EOF []].
Proof.
  intros Hnorm HA HB HdA HdB Hws1 Hws2 Hsp Hdg Hmap.
  rewrite tokenize_unfold, Hnorm.
  set (text := A ++ ws1 ++ op :: ws2 ++ B).
  assert (length text = length A + length ws1 + 1 + length ws2 + length B)%nat
    as Hlen.
  { unfold text. rewrite !length_app. simpl. rewrite length_app. lia. }
  assert (0 < length A)%nat by (destruct A; [done|simpl; lia]).
  assert (0 < length B)%nat by (destruct B; [done|simpl; lia]).
  assert (∀ ds, Forall ascii_digit ds → Forall (λ c, isdigit c = true) ds)
    as Hdigits.
  { intros ds Hds. eapply Forall_impl; [done|].
    by intros c (? & _)%ascii_digit_class. }
  assert (∀ ds c, Forall ascii_digit ds → head ds = Some c →
                  isspace c = false) as Hhead.
  { intros ds c Hds Hc%head_Some_elem_of. rewrite Forall_forall in Hds.
    by apply Hds, ascii_digit_class in Hc as (_ & ? & _). }
  replace (length text + 2)%nat with (S (S (S (S (length text - 2)))))
    by lia.
  assert (drop 0 text = [] ++ A ++ ws1 ++ op :: ws2 ++ B) as Hd0 by done.
  rewrite (tokenize_loop_number _ _ _ _ [] A _ Hd0);
    [|by eauto..| |simpl; lia].
  2:{ intros c Hc. destruct ws1 as [|w ws1]; simplify_eq/=; [done|].
      apply isspace_not_isdigit. by apply Forall_cons_1 in Hws1 as [? _]. }
  assert (drop (0 + length (@nil N) + length A) text
          = ws1 ++ op :: ws2 ++ B) as Hd1.
  { by apply (drop_app_inv text 0 A). }
  rewrite (tokenize_loop_char _ _ _ _ ws1 op ty _ Hd1); [|done..|lia].
  assert (drop (0 + length (@nil N) + length A + length ws1 + 1) text
          = ws2 ++ B ++ []) as Hd2.
  { rewrite app_nil_r, <-Nat.add_assoc.
    replace (length ws1 + 1)%nat with (length (ws1 ++ [op]))
      by (by rewrite length_app).
    apply drop_app_inv. by rewrite <-app_assoc. }
  rewrite (tokenize_loop_number _ _ _ _ ws2 B [] Hd2);
    [|by eauto..|rewrite length_app; lia].
  assert (drop (0 + length (@nil N) + length A + length ws1 + 1
                + length ws2 + length B) text = []) as Hd3.
  { rewrite <-(Nat.add_assoc _ (length ws2)), <-length_app.
    apply drop_app_inv. by rewrite <-app_assoc. }
  by rewrite (tokenize_loop_eof _ _ _ _ [] Hd3); [|done|simpl; lia].
Qed.

(** C2. For an input [A op B] of two numbers of digits [0] to [9] and one
    of the operators [+ - * /], with or without whitespace around the
    operator, the output is the encoding of [A] with the indicator, the
    symbols of the operator, and the encoding of [B] with the indicator. *)
Theorem binary_operands_both_marked latex A ws1 op ws2 B :
  normalized latex = A ++ ws1 ++ op :: ws2 ++ B →
  A ≠ [] → B ≠ [] → Forall ascii_digit A → Forall ascii_digit B →
  Forall (λ c, isspace c = true) ws1 → Forall (λ c, isspace c = true) ws2 →
  op ∈ [char_of "+"; char_of "-"; char_of "*"; char_of "/"] →
  ∃ a b sym,
    BrailleVisitor._number_to_braille A true
    = Ok (BrailleVisitor.NUMBER_INDICATOR ++ a)
    ∧ BrailleVisitor._number_to_braille B true
      = Ok (BrailleVisitor.NUMBER_INDICATOR ++ b)
    ∧ BrailleVisitor.OP_MAP !! [op] = Some sym
    ∧ latex_to_korean_braille latex
      = Ok ((BrailleVisitor.NUMBER_INDICATOR ++ a) ++ sym
            ++ (BrailleVisitor.NUMBER_INDICATOR ++ b)).
Proof.
  intros Hnorm HA HB HdA HdB Hws1 Hws2 Hop.
  destruct (operator_class op Hop) as (Hsp & Hdg & ty & sym & Hmap & Hty & Hsym).
  destruct (join_digits_ascii A HdA) as [a Ha].
  destruct (join_digits_ascii B HdB) as [b Hb].
  exists a, b, sym. unfold BrailleVisitor._number_to_braille.
  rewrite Ha, Hb. split_and!; [done..|].
  unfold latex_to_korean_braille.
  rewrite (tokenize_binary latex A ws1 op ty ws2 B) by done.
  cbn [mbind Result_bind].
  assert (parse [mkToken NUMBER A; mkToken ty [op]; mkToken NUMBER B;
                 mkToken EOF []]
          = Ok (BinaryOpNode [op] (NumberNode A) (NumberNode B))) as ->.
  { elem_of_cases Hty; subst ty; by vm_compute. }
  simpl. unfold BrailleVisitor.convert. cbn [BrailleVisitor._visit].
  unfold BrailleVisitor._number_to_braille, BrailleVisitor.getitem.
  by rewrite Ha, Hb, Hsym.
Qed.

Lemma binary_operands_both_marked_witness :
  ∃ a b sym,
    BrailleVisitor._number_to_braille (py "12") true
    = Ok (BrailleVisitor.NUMBER_INDICATOR ++ a)
    ∧ BrailleVisitor._number_to_braille (py "5") true
      = Ok (BrailleVisitor.NUMBER_INDICATOR ++ b)
    ∧ BrailleVisitor.OP_MAP !! [char_of "/"] = Some sym
    ∧ latex_to_korean_braille (py "$12 / 5$")
      = Ok ((BrailleVisitor.NUMBER_INDICATOR ++ a) ++ sym
            ++ (BrailleVisitor.NUMBER_INDICATOR ++ b)).
Proof.
  apply (binary_operands_both_marked (py "$12 / 5$")
           (py "12") (py " ") (char_of "/") (py " ") (py "5"));
    try (by vm_compute); try (repeat constructor; by vm_compute).
Defined.

Example convert_12_div_5 :
  latex_to_korean_braille (py "$12 / 5$") = Ok (py "⠼⠁⠃⠌⠌⠼⠑").
Proof. by vm_compute. Qed.

(** ** Grammar violations *)

(** C5, as stated, fails: a [ParseError] carries no position.  The inputs
    [)] and [1+)] stop the parser at token 0 and at token 2 (characters 0
    and 2 of the input), and raise the same exception; so nothing computed
    from the exception is the position. *)
Lemma parse_error_position_counterexample :
  ¬ (∃ position : Exception → nat,
       ∀ latex toks e self,
         tokenize latex = Ok toks →
         Parser.parse (Parser.__init__ toks) = (Raise e, self) →
         position e = Parser.pos self).
Proof.
  intros [position H].
  pose proof (H (py ")") _ _ _ eq_refl eq_refl) as H0.
  pose proof (H (py "1+)") _ _ _ eq_refl eq_refl) as H2.
  simpl in H0, H2. rewrite H0 in H2. discriminate H2.
Qed.

(** C5, amended. When the tokens of an input are no expression of the
    grammar, the parser raises a [ParseError] on the token it stopped at,
    and the conversion raises it unchanged.  The error carries the token
    kind that was expected, [RPAREN] or [EOF] from [_eat] or a factor from
    [parse_factor], and the token found there; it carries no position. *)
Theorem grammar_violation_raises_ParseError latex body :
  tokenize latex = Ok (body ++ [mkToken EOF []]) →
  ¬ (∃ tree, Expr body tree) →
  ∃ msg self tok,
    Parser.parse (Parser.__init__ (body ++ [mkToken EOF []]))
    = (Raise (ParseError msg), self)
    ∧ (body ++ [mkToken EOF []]) !! Parser.pos self = Some tok
    ∧ raised_on (ParseError msg) tok
    ∧ latex_to_korean_braille latex = Raise (ParseError msg).
Proof.
  intros Htok Hviolation.
  destruct (tokenize_Ok _ _ Htok) as (body' & Heq & Hwf & _).
  apply app_inj_tail in Heq as [<- _].
  pose proof (parse_tokenized body Hwf) as H.
  unfold latex_to_korean_braille, parse. rewrite Htok. cbn [mbind Result_bind].
  destruct (Parser.parse _) as [[tree|e|] self]; [| |done].
  - destruct Hviolation. by exists tree.
  - destruct H as (p & tok & -> & Hp & He).
    assert (∃ msg, e = ParseError msg) as [msg ->].
    { destruct He as [(? & -> & _)|[-> _]]; by eexists. }
    by exists msg, (Parser.mk (body ++ [mkToken EOF []]) p), tok.
Qed.

Lemma grammar_violation_raises_ParseError_witness :
  latex_to_korean_braille (py "3 + ")
  = Raise (ParseError (ExpectedFactor (mkToken EOF [])))
  ∧ ∃ msg self tok,
      Parser.parse
        (Parser.__init__
           ([mkToken NUMBER (py "3"); mkToken PLUS (py "+")]
            ++ [mkToken EOF []]))
      = (Raise (ParseError msg), self)
      ∧ ([mkToken NUMBER (py "3"); mkToken PLUS (py "+")]
         ++ [mkToken EOF []]) !! Parser.pos self = Some tok
      ∧ raised_on (ParseError msg) tok
      ∧ latex_to_korean_braille (py "3 + ") = Raise (ParseError msg).
Proof.
  split; [by vm_compute|].
  apply (grammar_violation_raises_ParseError (py "3 + ")); [by vm_compute|].
  intros [tree (tok & Hlast & Hty)%(proj1 grammar_last)].
  injection Hlast as <-. by elem_of_cases Hty.
Defined.

(** The four kinds of violation, each on an input of its own: a missing
    right parenthesis, an operator without a factor after it, a token after
    a complete expression, and a factor that is neither a number nor a
    left parenthesis. *)
Example violation_examples :
  latex_to_korean_braille (py "(3")
  = Raise (ParseError (Expected RPAREN (mkToken EOF [])))
  ∧ latex_to_korean_braille (py "3 *")
    = Raise (ParseError (ExpectedFactor (mkToken EOF [])))
  ∧ latex_to_korean_braille (py "3 4")
    = Raise (ParseError (Expected EOF (mkToken NUMBER (py "4"))))
  ∧ latex_to_korean_braille (py ")")
    = Raise (ParseError (ExpectedFactor (mkToken RPAREN (py ")")))).
Proof. by vm_compute. Qed.

(** ** Fuel

    The entry points never exhaust the fuel they fix, and more fuel does
    not change what they return. *)

Lemma Result_bind_mono {A B} (m m' : Result A) (f f' : A → Result B) r :
  m ≫= f = r → r ≠ OutOfFuel →
  (m ≠ OutOfFuel → m' = m) →
  (∀ a, f a = r → f' a = r) →
  m' ≫= f' = r.
Proof.
  intros Hr Hne Hm Hf. destruct m as [a|e|]; simpl in Hr.
  - rewrite Hm by done. simpl. by apply Hf.
  - by rewrite Hm.
  - by subst.
Qed.

Section lexer_fuel.
Import Lexer.

Lemma _skip_whitespace_mono fuel fuel' self r :
  _skip_whitespace fuel self = r → r ≠ OutOfFuel → (fuel ≤ fuel')%nat →
  _skip_whitespace fuel' self = r.
Proof.
  revert fuel' self. induction fuel as [|fuel IH];
    intros fuel' self H Hne Hle; [simpl in H; by subst|].
  destruct fuel' as [|fuel']; [lia|]. simpl in *.
  destruct (_current self) as [ch|]; [|done].
  destruct (isspace ch); [|done]. apply IH; [done..|lia].
Qed.

Lemma _read_number_loop_mono fuel fuel' self r :
  _read_number_loop fuel self = r → r ≠ OutOfFuel → (fuel ≤ fuel')%nat →
  _read_number_loop fuel' self = r.
Proof.
  revert fuel' self. induction fuel as [|fuel IH];
    intros fuel' self H Hne Hle; [simpl in H; by subst|].
  destruct fuel' as [|fuel']; [lia|]. simpl in *.
  destruct (_current self) as [ch|]; [|done].
  destruct (isdigit ch); [|done]. apply IH; [done..|lia].
Qed.

Lemma tokenize_loop_mono fuel fuel' self toks r :
  tokenize_loop fuel self toks = r → r ≠ OutOfFuel → (fuel ≤ fuel')%nat →
  tokenize_loop fuel' self toks = r.
Proof.
  revert fuel' self toks. induction fuel as [|fuel IH];
    intros fuel' self toks H Hne Hle; [simpl in H; by subst|].
  destruct fuel' as [|fuel']; [lia|]. simpl in *.
  eapply Result_bind_mono; [done|done| |].
  { intros ?. eapply _skip_whitespace_mono; [done..|lia]. }
  intros self1 H1. cbv beta in H1.
  destruct (_current self1) as [ch|]; [|done].
  destruct (isdigit ch).
  - eapply Result_bind_mono; [done|done| |].
    + intros Hne1. unfold _read_number in *.
      destruct (_read_number_loop fuel self1) as [self2| |] eqn:Hloop;
        [| |done].
      * by rewrite (_read_number_loop_mono fuel fuel' self1 (Ok self2))
          by (done || lia).
      * by rewrite (_read_number_loop_mono fuel fuel' self1 (Raise e))
          by (done || lia).
    + intros [tok self2] H2. cbv beta iota in H2. apply IH; [done..|lia].
  - destruct (_CHAR_MAP !! ch); [|done]. apply IH; [done..|lia].
Qed.

End lexer_fuel.

Lemma tokenize_total latex : tokenize latex ≠ OutOfFuel.
Proof.
  intros H. pose proof (tokenize_spec latex) as Hspec. by rewrite H in Hspec.
Qed.

Lemma tokenize_fuel latex fuel :
  (length (normalized latex) + 2 ≤ fuel)%nat →
  Lexer.tokenize_loop fuel (Lexer.__init__ latex) [] = tokenize latex.
Proof.
  intros Hle. eapply tokenize_loop_mono; [done| |done].
  apply tokenize_total.
Qed.

Section parser_fuel.
Import Parser.

(** [m'] does what [m] does, where [m] does not run out of fuel. *)
Definition refines {A} (m m' : M A) : Prop :=
  ∀ self r self', m self = (r, self') → r ≠ OutOfFuel → m' self = (r, self').

Lemma refines_refl {A} (m : M A) : refines m m.
Proof. by intros self r self' H _. Qed.

Lemma refines_out_of_fuel {A} (m : M A) : refines out_of_fuel m.
Proof. intros self r self' [= <- _] Hne. done. Qed.

Lemma refines_bind {A B} (m m' : M A) (f f' : A → M B) :
  refines m m' → (∀ a, refines (f a) (f' a)) →
  refines (bind m f) (bind m' f').
Proof.
  intros Hm Hf self r self'. unfold bind.
  destruct (m self) as [[a|e|] self1] eqn:H1.
  - rewrite (Hm _ _ _ H1) by done. apply Hf.
  - rewrite (Hm _ _ _ H1) by done. done.
  - by intros [= <- _] Hne.
Qed.

Lemma refines_if {A} (b : bool) (m1 m1' m2 m2' : M A) :
  refines m1 m1' → refines m2 m2' →
  refines (if b then m1 else m2) (if b then m1' else m2').
Proof. by destruct b. Qed.

Lemma parse_mono fuel :
  ∀ fuel', (fuel ≤ fuel')%nat →
    refines (parse_expr fuel) (parse_expr fuel')
    ∧ (∀ node,
         refines (parse_expr_loop fuel node) (parse_expr_loop fuel' node))
    ∧ refines (parse_term fuel) (parse_term fuel')
    ∧ (∀ node,
         refines (parse_term_loop fuel node) (parse_term_loop fuel' node))
    ∧ refines (parse_factor fuel) (parse_factor fuel').
Proof.
  induction fuel as [|fuel IH]; intros fuel' Hle.
  { split_and!; intros; apply refines_out_of_fuel. }
  destruct fuel' as [|fuel']; [lia|].
  destruct (IH fuel') as (IHe & IHel & IHt & IHtl & IHf); [lia|].
  cbn [parse_expr parse_expr_loop parse_term parse_term_loop parse_factor].
  split_and!; intros;
    repeat first
      [ apply refines_bind; [|intros ?]
      | apply refines_if
      | done
      | apply refines_refl ].
Qed.

End parser_fuel.

Lemma parse_total toks :
  (∃ tok, tok ∈ toks ∧ type tok = EOF) →
  (Parser.parse (Parser.__init__ toks)).1 ≠ OutOfFuel.
Proof.
  intros H%Parser_parse_spec.
  by destruct (Parser.parse _) as [[tree|e|] self].
Qed.

Lemma parse_fuel toks fuel :
  (∃ tok, tok ∈ toks ∧ type tok = EOF) →
  (3 * length toks + 3 ≤ fuel)%nat →
  Parser.parse_with fuel (Parser.__init__ toks)
  = Parser.parse (Parser.__init__ toks).
Proof.
  intros Heof Hle. pose proof (parse_total toks Heof) as Htotal.
  destruct (Parser.parse _) as [r self] eqn:Hparse.
  unfold Parser.parse in Hparse. revert Hparse Htotal.
  unfold Parser.parse_with. apply refines_bind; [|intros ?; apply refines_refl].
  by apply parse_mono.
Qed.

Lemma _visit_total node need_indicator :
  BrailleVisitor._visit node need_indicator ≠ OutOfFuel.
Proof.
  assert (∀ ds, BrailleVisitor.join_digits ds ≠ OutOfFuel) as Hjoin.
  { induction ds as [|d ds IH]; simpl; [done|].
    unfold BrailleVisitor.getitem.
    destruct (BrailleVisitor.DIGIT_MAP !! d); simpl; [|done].
    by destruct (BrailleVisitor.join_digits ds). }
  revert need_indicator.
  induction node as [value|op l IHl r IHr|expr IH]; intros need_indicator;
    cbn [BrailleVisitor._visit].
  - unfold BrailleVisitor._number_to_braille.
    pose proof (Hjoin value). by destruct (BrailleVisitor.join_digits value).
  - pose proof (IHl need_indicator). pose proof (IHr true).
    destruct (BrailleVisitor._visit l need_indicator); simpl; [|done..].
    unfold BrailleVisitor.getitem.
    destruct (BrailleVisitor.OP_MAP !! op); simpl; [|done].
    by destruct (BrailleVisitor._visit r true).
  - pose proof (IH true). by destruct (BrailleVisitor._visit expr true).
Qed.

(** The conversion returns or raises on every input. *)
Lemma latex_to_korean_braille_total latex :
  latex_to_korean_braille latex ≠ OutOfFuel.
Proof.
  unfold latex_to_korean_braille.
  destruct (tokenize latex) as [toks|e|] eqn:Htok; simpl; [|done|].
  2:{ by apply tokenize_total in Htok. }
  destruct (tokenize_Ok _ _ Htok) as (body & -> & Hwf & _).
  pose proof (parse_tokenized body Hwf) as H. unfold parse.
  destruct (Parser.parse _) as [[tree|e|] self]; simpl; [|done..].
  apply _visit_total.
Qed.

Lemma accept_convert node :
  BrailleVisitor.accept node = BrailleVisitor.convert node.
Proof. by destruct node. Qed.

(** * Further properties of the code *)

(** ** The lexer: what it returns *)

(** X1. The token list that [tokenize] returns ends with one [EOF] token
    with the empty text, and holds no other [EOF]; before it, a NUMBER
    token holds a non-empty run of [isdigit] characters, and any other
    token holds the one character that [_CHAR_MAP] maps to its kind. *)
Theorem tokenize_tokens latex toks :
  tokenize latex = Ok toks →
  ∃ body,
    toks = body ++ [mkToken EOF []]
    ∧ Forall (λ tok, type tok ≠ EOF) body
    ∧ Forall (λ tok,
        match type tok with
        | NUMBER => value tok ≠ [] ∧ Forall (λ c, isdigit c = true) (value tok)
        | ty => ∃ ch, value tok = [ch] ∧ Lexer._CHAR_MAP !! ch = Some ty
        end) body.
Proof.
  intros (body & -> & Hwf & _)%tokenize_Ok. exists body.
  split_and!; [done|..].
  - eapply Forall_impl; [done|]. by intros tok [? _]%token_wf_type.
  - eapply Forall_impl; [done|]. intros [ty v] Htok.
    pose proof (token_wf_type _ Htok) as [Hty _].
    destruct Htok as [(Hnum & ? & ?)|(ch & Hv & Hch)]; simpl in *.
    + by rewrite Hnum.
    + destruct ty; try (by exists ch); try done.
      apply _CHAR_MAP_lookup in Hch. by elem_of_cases Hch.
Qed.

Lemma tokenize_tokens_witness :
  ∃ body,
    [mkToken NUMBER (py "12"); mkToken PLUS (py "+"); mkToken LPAREN (py "(");
     mkToken NUMBER (py "3"); mkToken RPAREN (py ")"); mkToken EOF []]
    = body ++ [mkToken EOF []]
    ∧ Forall (λ tok, type tok ≠ EOF) body
    ∧ Forall (λ tok,
        match type tok with
        | NUMBER => value tok ≠ [] ∧ Forall (λ c, isdigit c = true) (value tok)
        | ty => ∃ ch, value tok = [ch] ∧ Lexer._CHAR_MAP !! ch = Some ty
        end) body.
Proof. apply (tokenize_tokens (py "12 + (3)")). by vm_compute. Defined.

(** X2. [tokenize] succeeds exactly when every character of the normalized
    input is whitespace, a digit of [isdigit] or one of the six characters
    of [_CHAR_MAP]; otherwise it raises [LexError], and nothing else. *)
Theorem tokenize_succeeds_iff latex :
  ((∃ toks, tokenize latex = Ok toks) ↔ Forall supported (normalized latex))
  ∧ ((∃ ch p len text, tokenize latex = Raise (LexError ch p len text))
     ↔ ¬ Forall supported (normalized latex)).
Proof.
  pose proof (tokenize_spec latex) as Hspec.
  destruct (tokenize latex) as [out|e|]; simpl in Hspec; [| |done].
  - destruct Hspec as (_ & _ & _ & Hall). rewrite drop_0 in Hall. split.
    + split; [done|]. by exists out.
    + split; [by intros (? & ? & ? & ? & ?)|done].
  - destruct Hspec as (pre & ch & post & Heq & _ & Hch & ->).
    rewrite drop_0 in Heq.
    assert (¬ Forall supported (normalized latex)) as Hnot.
    { rewrite Heq. by intros [_ [? _]%Forall_cons_1]%Forall_app. }
    split.
    + split; [by intros [? ?]|done].
    + split; [done|]. intros _. by eexists _, _, _, _.
Qed.

Lemma tokenize_succeeds_iff_witness :
  (∃ toks, tokenize (py "3 & 4") = Ok toks)
  ↔ Forall supported (normalized (py "3 & 4")).
Proof. apply (tokenize_succeeds_iff (py "3 & 4")). Defined.

(** X3. When the normalized input holds a character that the lexer does
    not accept, [tokenize] raises [LexError] with the first such character,
    its index in the normalized input, the length of the normalized input
    and the normalized input itself. *)
Theorem tokenize_first_unsupported latex pre ch post :
  normalized latex = pre ++ ch :: post →
  Forall supported pre → ¬ supported ch →
  tokenize latex
  = Raise (LexError ch (length pre) (length (normalized latex))
             (normalized latex)).
Proof.
  intros Heq Hpre Hch.
  destruct (tokenize_unsupported latex) as (pre' & ch' & post' & Heq' & ? & ? & ->).
  { exists ch. split; [|done]. rewrite Heq. apply elem_of_app. right. by left. }
  rewrite Heq in Heq' at 1.
  by destruct (first_unsupported_unique _ _ _ _ _ _ Heq' Hpre Hch)
    as (-> & -> & ->).
Qed.

Lemma tokenize_first_unsupported_witness :
  tokenize (py "$ (1 + x) * y $")
  = Raise (LexError (char_of "x") (length (py "(1 + "))
             (length (normalized (py "$ (1 + x) * y $")))
             (normalized (py "$ (1 + x) * y $"))).
Proof.
  apply (tokenize_first_unsupported (py "$ (1 + x) * y $") (py "(1 + ")
           (char_of "x") (py ") * y")).
  - by vm_compute.
  - repeat constructor; compute_done.
  - compute_done.
Defined.

(** ** The lexer: what it keeps of the input *)

Lemma isdigit_not_isspace c : isdigit c = true → isspace c = false.
Proof.
  intros Hd. destruct (isspace c) eqn:Hs; [|done].
  apply isspace_not_isdigit in Hs. congruence.
Qed.

Lemma filter_whitespace (ws : str) :
  Forall (λ c, isspace c = true) ws → filter (λ c, isspace c = false) ws = [].
Proof.
  induction 1 as [|c ws Hc _ IH]; [done|].
  rewrite filter_cons_False; [done|congruence].
Qed.

Lemma filter_no_whitespace (v : str) :
  Forall (λ c, isspace c = false) v → filter (λ c, isspace c = false) v = v.
Proof.
  induction 1 as [|c v Hc _ IH]; [done|].
  by rewrite filter_cons_True, IH.
Qed.

Section lexer_values.
Import Lexer.

Lemma tokenize_loop_values fuel text p toks out :
  (length (drop p text) + 1 < fuel)%nat →
  tokenize_loop fuel (mk text p) toks = Ok out →
  concat (value <$> out)
  = concat (value <$> toks) ++ filter (λ c, isspace c = false) (drop p text).
Proof.
  revert p toks. induction fuel as [|fuel IH]; intros p toks Hfuel; [lia|].
  destruct (span_class isspace (drop p text))
    as (ws & rest & Hdrop & Hws & Hrest).
  rewrite Hdrop, length_app in Hfuel.
  rewrite Hdrop, filter_app, (filter_whitespace ws Hws). cbn [app].
  destruct rest as [|ch rest].
  { rewrite app_nil_r in Hdrop. rewrite (tokenize_loop_eof _ _ _ _ ws);
      [|done|done|lia].
    intros [= <-]. rewrite fmap_app, concat_app. simpl.
    by rewrite filter_nil. }
  specialize (Hrest ch eq_refl). destruct (isdigit ch) eqn:Hdg.
  - destruct (span_class isdigit (ch :: rest))
      as (ds & rest2 & Hds & Hall & Hrest2).
    destruct ds as [|d ds'].
    { simpl in Hds. subst rest2. by rewrite (Hrest2 ch) in Hdg. }
    assert (d = ch) as -> by (by simplify_eq/=).
    rewrite Hds in Hdrop, Hfuel |- *. rewrite length_app in Hfuel.
    rewrite (tokenize_loop_number _ _ _ _ ws (ch :: ds') rest2);
      [|done|done|done|by intros ? [= <-]|done|done|
       rewrite length_app; lia].
    rewrite <-Nat.add_assoc, <-length_app. intros Hout.
    apply IH in Hout.
    2:{ rewrite (drop_app_inv _ _ (ws ++ ch :: ds') rest2);
          [|by rewrite <-app_assoc].
        simpl in *. lia. }
    rewrite Hout, fmap_app, concat_app, <-app_assoc. simpl.
    rewrite (drop_app_inv _ _ (ws ++ ch :: ds') rest2);
      [|by rewrite <-app_assoc].
    rewrite app_nil_r.
    change (ch :: ds' ++ rest2) with ((ch :: ds') ++ rest2).
    rewrite filter_app, (filter_no_whitespace (ch :: ds')); [done|].
    eapply Forall_impl; [done|]. apply isdigit_not_isspace.
  - destruct (_CHAR_MAP !! ch) as [ty|] eqn:Hmap.
    + rewrite (tokenize_loop_char _ _ _ _ ws ch ty rest); [|done..|lia].
      replace (p + length ws + 1)%nat with (p + length (ws ++ [ch]))%nat
        by (rewrite length_app; simpl; lia).
      intros Hout. apply IH in Hout.
      2:{ rewrite (drop_app_inv _ _ (ws ++ [ch]) rest);
            [|by rewrite <-app_assoc].
          simpl in *. lia. }
      rewrite Hout, fmap_app, concat_app, <-app_assoc. simpl.
      rewrite (drop_app_inv _ _ (ws ++ [ch]) rest);
        [|by rewrite <-app_assoc].
      by rewrite filter_cons_True.
    + rewrite (tokenize_loop_other _ _ _ _ ws ch rest); [done|done..| |lia].
      intros [?|[?|[? ?]]]; congruence.
Qed.

End lexer_values.

Lemma tokenize_concat_values latex toks :
  tokenize latex = Ok toks →
  concat (value <$> toks)
  = filter (λ c, isspace c = false) (normalized latex).
Proof.
  rewrite tokenize_unfold. intros H.
  apply tokenize_loop_values in H; [|rewrite drop_0; lia].
  by rewrite drop_0 in H.
Qed.

(** X4. Lexing loses nothing but whitespace: the texts of the tokens that
    [tokenize] returns, one after the other, are the normalized input
    without its whitespace characters. *)
Theorem tokenize_values latex toks :
  tokenize latex = Ok toks →
  concat (value <$> toks)
  = filter (λ c, isspace c = false) (normalized latex).
Proof.
  rewrite tokenize_unfold. intros H.
  apply tokenize_loop_values in H; [|rewrite drop_0; lia].
  by rewrite drop_0 in H.
Qed.

Lemma tokenize_values_witness :
  concat (value <$>
            [mkToken NUMBER (py "12"); mkToken PLUS (py "+");
             mkToken LPAREN (py "("); mkToken NUMBER (py "3");
             mkToken RPAREN (py ")"); mkToken EOF []])
  = filter (λ c, isspace c = false) (normalized (py "$12 +  (3 )$")).
Proof. apply (tokenize_values (py "$12 +  (3 )$")). by vm_compute. Defined.

Lemma length_concat_nonempty {A} (ls : list (list A)) :
  Forall (λ l, l ≠ []) ls → (length ls ≤ length (concat ls))%nat.
Proof.
  induction 1 as [|l ls Hl _ IH]; simpl; [done|].
  rewrite length_app. destruct l; [done|]. simpl. lia.
Qed.

(** X5. [tokenize] returns at least the [EOF] token, and at most one token
    for each character of the normalized input that is not whitespace and
    the [EOF]: never more tokens than the input has characters, and one. *)
Theorem tokenize_length latex toks :
  tokenize latex = Ok toks →
  (1 ≤ length toks
   ≤ length (filter (λ c, isspace c = false) (normalized latex)) + 1)%nat
  ∧ (length toks ≤ length latex + 1)%nat.
Proof.
  intros H. pose proof (tokenize_concat_values _ _ H) as Hval.
  destruct (tokenize_Ok _ _ H) as (body & -> & Hwf & _).
  rewrite fmap_app, concat_app in Hval. simpl in Hval.
  rewrite app_nil_r in Hval. rewrite length_app. simpl.
  assert (length body
          ≤ length (filter (λ c, isspace c = false) (normalized latex)))%nat
    as Hle.
  { rewrite <-Hval, <-(length_fmap value body).
    apply length_concat_nonempty, Forall_fmap.
    eapply Forall_impl; [done|]. by intros tok [_ ?]%token_wf_type. }
  split; [lia|].
  assert (length (normalized latex) ≤ length latex)%nat as Hnorm.
  { unfold normalized, Lexer.__init__, strip, rstrip; simpl.
    assert (∀ s, length (lstrip s) ≤ length s)%nat as Hl.
    { induction s as [|c s IH]; simpl; [done|].
      destruct (isspace c); simpl; lia. }
    rewrite length_reverse.
    etrans; [apply Hl|]. rewrite length_reverse.
    etrans; [apply Hl|]. apply length_filter. }
  pose proof (length_filter (λ c, isspace c = false) (normalized latex)).
  lia.
Qed.

Lemma tokenize_length_witness :
  (1 ≤ length [mkToken NUMBER (py "12"); mkToken PLUS (py "+");
               mkToken NUMBER (py "3"); mkToken EOF []]
   ≤ length (filter (λ c, isspace c = false) (normalized (py " 12 + 3 ")))
     + 1)%nat
  ∧ (length [mkToken NUMBER (py "12"); mkToken PLUS (py "+");
             mkToken NUMBER (py "3"); mkToken EOF []]
     ≤ length (py " 12 + 3 ") + 1)%nat.
Proof. apply (tokenize_length (py " 12 + 3 ")). by vm_compute. Defined.

(** ** What the lexer ignores *)

Lemma lstrip_app s t :
  lstrip (s ++ t) = match lstrip s with [] => lstrip t | _ => lstrip s ++ t end.
Proof.
  induction s as [|c s IH]; simpl; [done|]. by destruct (isspace c).
Qed.

Lemma rstrip_app_whitespace s ws :
  Forall (λ c, isspace c = true) ws → rstrip (s ++ ws) = rstrip s.
Proof.
  intros Hws. unfold rstrip. rewrite reverse_app, lstrip_app.
  apply Forall_reverse, lstrip_nil in Hws. by rewrite Hws.
Qed.

Lemma strip_app_whitespace ws1 s ws2 :
  Forall (λ c, isspace c = true) ws1 → Forall (λ c, isspace c = true) ws2 →
  strip (ws1 ++ s ++ ws2) = strip s.
Proof.
  intros Hws1 Hws2. unfold strip. rewrite lstrip_app.
  apply lstrip_nil in Hws1. rewrite Hws1, lstrip_app.
  destruct (lstrip s) as [|c s'] eqn:Hs.
  - apply lstrip_nil in Hws2. by rewrite Hws2.
  - by apply rstrip_app_whitespace.
Qed.

Lemma tokenize_normalized latex latex' :
  normalized latex' = normalized latex → tokenize latex' = tokenize latex.
Proof. intros H. by rewrite !tokenize_unfold, H. Qed.

(** X6. Dollar signs, wherever they stand, and whitespace at the two ends
    of the input do not change what the conversion returns or raises: two
    inputs that, without their dollar signs, differ by leading and trailing
    whitespace only have the same result. *)
Theorem dollars_and_outer_whitespace_ignored latex latex' ws1 ws2 :
  replace_with_empty (char_of "$") latex'
  = ws1 ++ replace_with_empty (char_of "$") latex ++ ws2 →
  Forall (λ c, isspace c = true) ws1 → Forall (λ c, isspace c = true) ws2 →
  tokenize latex' = tokenize latex
  ∧ latex_to_korean_braille latex' = latex_to_korean_braille latex.
Proof.
  intros Heq Hws1 Hws2.
  assert (tokenize latex' = tokenize latex) as Htok.
  { apply tokenize_normalized. unfold normalized, Lexer.__init__; simpl.
    rewrite Heq. by apply strip_app_whitespace. }
  split; [done|]. unfold latex_to_korean_braille. by rewrite Htok.
Qed.

Lemma dollars_and_outer_whitespace_ignored_witness :
  tokenize (py " $3 +$ 5$  ") = tokenize (py "3 + 5")
  ∧ latex_to_korean_braille (py " $3 +$ 5$  ")
    = latex_to_korean_braille (py "3 + 5").
Proof.
  apply (dollars_and_outer_whitespace_ignored _ _ (py " ") (py "  "));
    [by vm_compute|repeat constructor..].
Defined.

(** ** The parser: trees and sentences *)

Section parser_tokens.
Import Parser.

(** A method leaves the token list of the parser as it is. *)
Definition keeps_tokens {A} (m : M A) : Prop :=
  ∀ self r self', m self = (r, self') → tokens self' = tokens self.

Lemma keeps_tokens_bind {A B} (m : M A) (f : A → M B) :
  keeps_tokens m → (∀ a, keeps_tokens (f a)) → keeps_tokens (bind m f).
Proof.
  intros Hm Hf self r self'. unfold bind.
  destruct (m self) as [[a|e|] self1] eqn:H1; intros H.
  - rewrite (Hf _ _ _ _ H). by eapply Hm.
  - injection H as <- <-. by eapply Hm.
  - injection H as <- <-. by eapply Hm.
Qed.

Lemma keeps_tokens_if {A} (b : bool) (m1 m2 : M A) :
  keeps_tokens m1 → keeps_tokens m2 → keeps_tokens (if b then m1 else m2).
Proof. by destruct b. Qed.

Lemma keeps_tokens_prim :
  keeps_tokens _current ∧ keeps_tokens incr_pos
  ∧ (∀ A (a : A), keeps_tokens (ret a))
  ∧ (∀ A e, keeps_tokens (raise (A:=A) e))
  ∧ (∀ A, keeps_tokens (out_of_fuel (A:=A))).
Proof.
  split_and!; intros; intros self r self'; unfold _current, incr_pos, ret,
    raise, out_of_fuel; try destruct (tokens self !! pos self);
    by intros [= <- <-].
Qed.

Lemma keeps_tokens_methods :
  keeps_tokens _peek_type ∧ keeps_tokens _advance
  ∧ ∀ expected, keeps_tokens (_eat expected).
Proof.
  destruct keeps_tokens_prim as (Hc & Hi & Hr & Hraise & _).
  split_and!; intros; unfold _peek_type, _advance, _eat;
    repeat first
      [ apply keeps_tokens_bind; [|intros ?]
      | apply keeps_tokens_if
      | done ].
Qed.

Lemma parse_keeps_tokens fuel :
  keeps_tokens (parse_expr fuel)
  ∧ (∀ node, keeps_tokens (parse_expr_loop fuel node))
  ∧ keeps_tokens (parse_term fuel)
  ∧ (∀ node, keeps_tokens (parse_term_loop fuel node))
  ∧ keeps_tokens (parse_factor fuel).
Proof.
  destruct keeps_tokens_prim as (Hc & Hi & Hr & Hraise & Hout).
  destruct keeps_tokens_methods as (Hpeek & Hadv & Heat).
  induction fuel as [|fuel (IHe & IHel & IHt & IHtl & IHf)].
  { by split_and!; intros. }
  cbn [parse_expr parse_expr_loop parse_term parse_term_loop parse_factor].
  split_and!; intros;
    repeat first
      [ apply keeps_tokens_bind; [|intros ?]
      | apply keeps_tokens_if
      | done ].
Qed.

End parser_tokens.

Lemma grammar_no_EOF :
  (∀ ts node, Expr ts node → Forall (λ tok, type tok ≠ EOF) ts)
  ∧ (∀ ts node, Term ts node → Forall (λ tok, type tok ≠ EOF) ts)
  ∧ (∀ ts node, Factor ts node → Forall (λ tok, type tok ≠ EOF) ts).
Proof.
  apply grammar_ind.
  - auto.
  - intros ts1 op ts2 l r _ H1 Hop _ H2. apply Forall_app. split; [done|].
    constructor; [|done]. intros E. rewrite E in Hop. by elem_of_cases Hop.
  - auto.
  - intros ts1 op ts2 l r _ H1 Hop _ H2. apply Forall_app. split; [done|].
    constructor; [|done]. intros E. rewrite E in Hop. by elem_of_cases Hop.
  - intros tok Hty. constructor; [congruence|done].
  - intros lp ts rp inner Hlp _ H Hrp. constructor; [congruence|].
    apply Forall_app. split; [done|]. constructor; [congruence|done].
Qed.

Lemma parse_Ok_has_EOF toks tree self :
  Parser.parse (Parser.__init__ toks) = (Ok tree, self) →
  ∃ tok, tok ∈ toks ∧ type tok = EOF.
Proof.
  intros Hparse.
  unfold Parser.parse, Parser.parse_with, Parser.bind in Hparse.
  cbn [Parser.tokens Parser.__init__] in Hparse.
  destruct (Parser.parse_expr _ _) as [[t1|e|] s1] eqn:H1; [|done..].
  apply (proj1 (parse_keeps_tokens _)) in H1. simpl in H1.
  unfold Parser._eat, Parser.bind, Parser._current in Hparse.
  destruct (Parser.tokens s1 !! Parser.pos s1) as [tok|] eqn:Htok; [|done].
  rewrite H1 in Htok. exists tok. split; [by eapply list_elem_of_lookup_2|].
  by case_bool_decide.
Qed.

(** X7. When [parse] returns a tree, the token list holds an [EOF] token,
    the tokens before its first [EOF] are an expression of the grammar
    with that tree, and the parser has consumed them and that [EOF] and
    nothing after it. *)
Theorem parse_sound toks tree self :
  Parser.parse (Parser.__init__ toks) = (Ok tree, self) →
  ∃ body eof rest,
    toks = body ++ eof :: rest
    ∧ Forall (λ tok, type tok ≠ EOF) body ∧ type eof = EOF
    ∧ Expr body tree
    ∧ self = Parser.mk toks (S (length body)).
Proof.
  intros Hparse. pose proof (parse_Ok_has_EOF _ _ _ Hparse) as Heof.
  pose proof (Parser_parse_spec toks Heof) as Hspec.
  rewrite Hparse in Hspec.
  destruct Hspec as (body & eof & rest & -> & Hty & Hexpr & ->).
  exists body, eof, rest. split_and!; [done| |done..].
  by eapply (proj1 grammar_no_EOF).
Qed.

Lemma parse_sound_witness :
  ∃ body eof rest,
    [mkToken NUMBER (py "1"); mkToken PLUS (py "+"); mkToken NUMBER (py "2");
     mkToken EOF []; mkToken NUMBER (py "9")]
    = body ++ eof :: rest
    ∧ Forall (λ tok, type tok ≠ EOF) body ∧ type eof = EOF
    ∧ Expr body
        (BinaryOpNode (py "+") (NumberNode (py "1")) (NumberNode (py "2")))
    ∧ Parser.mk
        [mkToken NUMBER (py "1"); mkToken PLUS (py "+");
         mkToken NUMBER (py "2"); mkToken EOF []; mkToken NUMBER (py "9")] 4
      = Parser.mk
          [mkToken NUMBER (py "1"); mkToken PLUS (py "+");
           mkToken NUMBER (py "2"); mkToken EOF []; mkToken NUMBER (py "9")]
          (S (length body)).
Proof. apply parse_sound. by vm_compute. Defined.

Section parser_complete.
Import Parser.

Context (toks : list Token).

Lemma lookup_drop_app p (ts : list Token) tok rest :
  drop p toks = ts ++ tok :: rest → toks !! (p + length ts)%nat = Some tok.
Proof.
  intros H. rewrite <-lookup_drop, H. by apply list_lookup_middle.
Qed.

Lemma drop_drop_app p (ts1 ts2 : list Token) :
  drop p toks = ts1 ++ ts2 → drop (p + length ts1) toks = ts2.
Proof.
  intros H. by rewrite <-drop_drop, H, drop_app_length.
Qed.

(** The runs of the parser that return. *)
Definition runs {A} (m : M A) (p : nat) (a : A) (q : nat) : Prop :=
  m (mk toks p) = (Ok a, mk toks q).

Lemma runs_mono {A} (m m' : M A) p a q :
  refines m m' → runs m p a q → runs m' p a q.
Proof. intros Href H. by apply Href. Qed.

Lemma runs_term f1 f2 p node q node' q' :
  runs (parse_factor f1) p node q →
  runs (parse_term_loop f2 node) q node' q' →
  runs (parse_term (S (f1 `max` f2))) p node' q'.
Proof.
  intros H1 H2. destruct (parse_mono f1 (f1 `max` f2)) as (_ & _ & _ & _ & Hf);
    [lia|].
  destruct (parse_mono f2 (f1 `max` f2)) as (_ & _ & _ & Htl & _); [lia|].
  unfold runs. cbn [parse_term]. unfold bind at 1.
  rewrite (runs_mono _ _ _ _ _ Hf H1). by apply (Htl node).
Qed.

Lemma runs_expr f1 f2 p node q node' q' :
  runs (parse_term f1) p node q →
  runs (parse_expr_loop f2 node) q node' q' →
  runs (parse_expr (S (f1 `max` f2))) p node' q'.
Proof.
  intros H1 H2. destruct (parse_mono f1 (f1 `max` f2)) as (_ & _ & Ht & _);
    [lia|].
  destruct (parse_mono f2 (f1 `max` f2)) as (_ & Hel & _); [lia|].
  unfold runs. cbn [parse_expr]. unfold bind at 1.
  rewrite (runs_mono _ _ _ _ _ Ht H1). by apply (Hel node).
Qed.

Lemma runs_term_loop_stop p node tok :
  toks !! p = Some tok → type tok ∉ [STAR; SLASH] →
  runs (parse_term_loop 1 node) p node p.
Proof.
  intros Htok Hty. unfold runs. cbn [parse_term_loop].
  rewrite (bind__peek_type toks _ _ _ Htok).
  by rewrite bool_decide_false.
Qed.

Lemma runs_expr_loop_stop p node tok :
  toks !! p = Some tok → type tok ∉ [PLUS; MINUS] →
  runs (parse_expr_loop 1 node) p node p.
Proof.
  intros Htok Hty. unfold runs. cbn [parse_expr_loop].
  rewrite (bind__peek_type toks _ _ _ Htok).
  by rewrite bool_decide_false.
Qed.

Lemma runs_term_loop_step f1 f2 p node op_tok node_right q node' q' :
  toks !! p = Some op_tok → type op_tok ∈ [STAR; SLASH] →
  runs (parse_factor f1) (p + 1) node_right q →
  runs (parse_term_loop f2 (BinaryOpNode (value op_tok) node node_right))
    q node' q' →
  runs (parse_term_loop (S (f1 `max` f2)) node) p node' q'.
Proof.
  intros Htok Hty H1 H2.
  destruct (parse_mono f1 (f1 `max` f2)) as (_ & _ & _ & _ & Hf); [lia|].
  destruct (parse_mono f2 (f1 `max` f2)) as (_ & _ & _ & Htl & _); [lia|].
  unfold runs. cbn [parse_term_loop].
  rewrite (bind__peek_type toks _ _ _ Htok), bool_decide_true by done.
  rewrite (bind__advance toks _ _ _ Htok). unfold bind at 1.
  rewrite (runs_mono _ _ _ _ _ Hf H1). by apply Htl.
Qed.

Lemma runs_expr_loop_step f1 f2 p node op_tok node_right q node' q' :
  toks !! p = Some op_tok → type op_tok ∈ [PLUS; MINUS] →
  runs (parse_term f1) (p + 1) node_right q →
  runs (parse_expr_loop f2 (BinaryOpNode (value op_tok) node node_right))
    q node' q' →
  runs (parse_expr_loop (S (f1 `max` f2)) node) p node' q'.
Proof.
  intros Htok Hty H1 H2.
  destruct (parse_mono f1 (f1 `max` f2)) as (_ & _ & Ht & _); [lia|].
  destruct (parse_mono f2 (f1 `max` f2)) as (_ & Hel & _); [lia|].
  unfold runs. cbn [parse_expr_loop].
  rewrite (bind__peek_type toks _ _ _ Htok), bool_decide_true by done.
  rewrite (bind__advance toks _ _ _ Htok). unfold bind at 1.
  rewrite (runs_mono _ _ _ _ _ Ht H1). by apply Hel.
Qed.

(** The parser follows every derivation of the grammar: a factor is parsed
    as such, and a term or an expression is parsed up to the point where
    the loop of its rule goes on. *)
Lemma parse_follows_grammar :
  (∀ ts node, Expr ts node →
     ∀ p tok rest, drop p toks = ts ++ tok :: rest →
       type tok ∉ [STAR; SLASH] →
       ∀ node' q,
         (∃ f, runs (parse_expr_loop f node) (p + length ts) node' q) →
         ∃ f, runs (parse_expr f) p node' q)
  ∧ (∀ ts node, Term ts node →
     ∀ p rest, drop p toks = ts ++ rest →
       ∀ node' q,
         (∃ f, runs (parse_term_loop f node) (p + length ts) node' q) →
         ∃ f, runs (parse_term f) p node' q)
  ∧ (∀ ts node, Factor ts node →
     ∀ p rest, drop p toks = ts ++ rest →
       ∃ f, runs (parse_factor f) p node (p + length ts)).
Proof.
  apply grammar_ind.
  - (* an expression that is a term *)
    intros ts node _ IH p tok rest Hdrop Hty node' q [f2 H2].
    destruct (IH p (tok :: rest) Hdrop node (p + length ts)%nat) as [f1 H1].
    { exists 1%nat. eapply runs_term_loop_stop; [|done].
      by eapply lookup_drop_app. }
    eexists. by eapply runs_expr.
  - (* an expression, an operator and a term *)
    intros ts1 op ts2 l r _ IHl Hop _ IHr p tok rest Hdrop Hty node' q
      [f2 H2].
    rewrite <-app_assoc in Hdrop. simpl in Hdrop.
    apply (IHl p op (ts2 ++ tok :: rest) Hdrop).
    { intros H. elem_of_cases H; rewrite H in Hop; by elem_of_cases Hop. }
    pose proof (lookup_drop_app _ _ _ _ Hdrop) as Hlook.
    apply (drop_drop_app _ ts1) in Hdrop.
    apply (drop_drop_app _ [op]) in Hdrop. simpl in Hdrop.
    destruct (IHr _ _ Hdrop r (p + length ts1 + 1 + length ts2)%nat)
      as [f1 H1].
    { exists 1%nat. eapply runs_term_loop_stop; [|done].
      by eapply lookup_drop_app. }
    eexists. eapply runs_expr_loop_step; [done..|].
    rewrite length_app in H2. simpl in H2.
    by replace (p + length ts1 + 1 + length ts2)%nat
      with (p + (length ts1 + S (length ts2)))%nat by lia.
  - (* a term that is a factor *)
    intros ts node _ IH p rest Hdrop node' q [f2 H2].
    destruct (IH p rest Hdrop) as [f1 H1].
    eexists. by eapply runs_term.
  - (* a term, an operator and a factor *)
    intros ts1 op ts2 l r _ IHl Hop _ IHr p rest Hdrop node' q [f2 H2].
    rewrite <-app_assoc in Hdrop. simpl in Hdrop.
    apply (IHl p (op :: ts2 ++ rest) Hdrop).
    pose proof (lookup_drop_app _ _ _ _ Hdrop) as Hlook.
    apply (drop_drop_app _ ts1) in Hdrop.
    apply (drop_drop_app _ [op]) in Hdrop. simpl in Hdrop.
    destruct (IHr _ _ Hdrop) as [f1 H1].
    eexists. eapply runs_term_loop_step; [done..|].
    rewrite length_app in H2. simpl in H2.
    by replace (p + length ts1 + 1 + length ts2)%nat
      with (p + (length ts1 + S (length ts2)))%nat by lia.
  - (* a number *)
    intros tok Hty p rest Hdrop. exists 1%nat. unfold runs.
    pose proof (lookup_drop_app p [] tok rest Hdrop) as Hlook.
    simpl in Hlook. rewrite Nat.add_0_r in Hlook. cbn [parse_factor].
    rewrite (bind__current toks _ _ _ Hlook), bool_decide_true by done.
    by rewrite (bind__advance toks _ _ _ Hlook).
  - (* a group *)
    intros lp ts rp inner Hlp _ IH Hrp p rest Hdrop.
    pose proof (lookup_drop_app p [] lp _ Hdrop) as Hlook.
    simpl in Hlook. rewrite Nat.add_0_r in Hlook.
    apply (drop_drop_app p [lp] ((ts ++ [rp]) ++ rest)) in Hdrop.
    simpl in Hdrop. rewrite <-app_assoc in Hdrop. simpl in Hdrop.
    pose proof (lookup_drop_app _ _ _ _ Hdrop) as Hlook'.
    destruct (IH (p + 1)%nat rp rest Hdrop) with (node' := inner)
      (q := (p + 1 + length ts)%nat) as [f H].
    { rewrite Hrp. intros H. by elem_of_cases H. }
    { exists 1%nat. eapply runs_expr_loop_stop; [done|].
      rewrite Hrp. intros H. by elem_of_cases H. }
    exists (S f). unfold runs. cbn [parse_factor].
    rewrite (bind__current toks _ _ _ Hlook).
    rewrite bool_decide_false by congruence.
    rewrite bool_decide_true by done.
    rewrite (bind__eat toks _ _ _ _ Hlook), bool_decide_false by (by intros ?).
    unfold bind at 1. rewrite H.
    rewrite (bind__eat toks _ _ _ _ Hlook'), bool_decide_false by (by intros ?).
    unfold ret. do 2 f_equal. simpl. rewrite length_app. simpl. lia.
Qed.

End parser_complete.

Lemma parse_with_mono fuel fuel' :
  (fuel ≤ fuel')%nat →
  refines (Parser.parse_with fuel) (Parser.parse_with fuel').
Proof.
  intros Hle. unfold Parser.parse_with.
  apply refines_bind; [|intros ?; apply refines_refl]. by apply parse_mono.
Qed.

Lemma parse_with_of_Expr body eof rest tree :
  Expr body tree → type eof = EOF →
  ∃ f, Parser.parse_with f (Parser.__init__ (body ++ eof :: rest))
       = (Ok tree, Parser.mk (body ++ eof :: rest) (S (length body))).
Proof.
  intros Hexpr Heof. set (toks := body ++ eof :: rest).
  assert (toks !! length body = Some eof) as Hlook.
  { by apply list_lookup_middle. }
  destruct (proj1 (parse_follows_grammar toks) body tree Hexpr 0%nat eof rest)
    with (node' := tree) (q := length body) as [f Hf].
  - done.
  - rewrite Heof. intros H. by elem_of_cases H.
  - exists 1%nat. eapply runs_expr_loop_stop; [done|].
    rewrite Heof. intros H. by elem_of_cases H.
  - exists f. unfold Parser.parse_with, Parser.__init__.
    unfold Parser.bind at 1. unfold runs in Hf. rewrite Hf.
    rewrite (bind__eat toks _ _ _ _ Hlook), bool_decide_false
      by (by intros ?).
    unfold Parser.ret. do 2 f_equal. lia.
Qed.

Lemma parse_with_parse toks f tree self :
  (∃ tok, tok ∈ toks ∧ type tok = EOF) →
  Parser.parse_with f (Parser.__init__ toks) = (Ok tree, self) →
  Parser.parse (Parser.__init__ toks) = (Ok tree, self).
Proof.
  intros Hex Hwith. pose proof (parse_total toks Hex) as Htotal.
  destruct (Parser.parse (Parser.__init__ toks)) as [r self'] eqn:Hparse.
  unfold Parser.parse in Hparse. cbn [Parser.tokens Parser.__init__] in Hparse.
  destruct (decide (f ≤ 3 * length toks + 3)%nat) as [Hle|Hgt].
  - pose proof (parse_with_mono _ _ Hle _ _ _ Hwith) as Hw.
    rewrite Hw in Hparse by done. by injection Hparse as <- <-.
  - assert (3 * length toks + 3 ≤ f)%nat as Hle by lia.
    pose proof (parse_with_mono _ _ Hle _ _ _ Hparse Htotal) as Hw.
    by rewrite Hwith in Hw.
Qed.

(** X8. The parser is complete for the grammar: when the tokens before an
    [EOF] token are an expression of the grammar with some tree, [parse]
    returns that tree, and stops just after that [EOF], whatever follows
    it. *)
Theorem parse_complete body eof rest tree :
  Expr body tree → type eof = EOF →
  Parser.parse (Parser.__init__ (body ++ eof :: rest))
  = (Ok tree, Parser.mk (body ++ eof :: rest) (S (length body))).
Proof.
  intros Hexpr Heof.
  destruct (parse_with_of_Expr body eof rest tree Hexpr Heof) as [f Hf].
  eapply parse_with_parse; [|done].
  exists eof. split; [|done]. apply elem_of_app. right. by left.
Qed.

Lemma parse_complete_witness :
  Parser.parse
    (Parser.__init__
       ([mkToken NUMBER (py "1"); mkToken MINUS (py "-");
         mkToken NUMBER (py "2")]
        ++ mkToken EOF [] :: [mkToken RPAREN (py ")")]))
  = (Ok (BinaryOpNode (py "-") (NumberNode (py "1")) (NumberNode (py "2"))),
     Parser.mk
       ([mkToken NUMBER (py "1"); mkToken MINUS (py "-");
         mkToken NUMBER (py "2")]
        ++ mkToken EOF [] :: [mkToken RPAREN (py ")")])
       (S (length [mkToken NUMBER (py "1"); mkToken MINUS (py "-");
                   mkToken NUMBER (py "2")]))).
Proof.
  apply parse_complete; [|done].
  apply (Expr_binop [mkToken NUMBER (py "1")] (mkToken MINUS (py "-"))
           [mkToken NUMBER (py "2")]).
  - by apply Expr_term, Term_factor, (Factor_number (mkToken NUMBER (py "1"))).
  - by right; left.
  - by apply Term_factor, (Factor_number (mkToken NUMBER (py "2"))).
Defined.



(** ** The parser on any token list *)

Section parser_total.
Import Parser.

Context (toks : list Token).

(** A method called at position [p] returns at a position within the
    list, or raises a [ParseError] or an [IndexError]. *)
Definition safe {A} (p : nat) (res : Result A * t) : Prop :=
  tokens res.2 = toks
  ∧ match res.1 with
    | Ok _ => (p ≤ pos res.2 ≤ length toks)%nat
    | Raise e => (∃ msg, e = ParseError msg) ∨ e = IndexError
    | OutOfFuel => False
    end.

Lemma safe_bind {A B} p (m : M A) (f : A → M B) :
  safe p (m (mk toks p)) →
  (∀ a p1, (p ≤ p1 ≤ length toks)%nat → safe p1 (f a (mk toks p1))) →
  safe p (bind m f (mk toks p)).
Proof.
  intros Hm Hf. unfold bind.
  destruct (m (mk toks p)) as [[a|e|] [toks1 p1]]; destruct Hm as [Ht Hm];
    simpl in *; subst; [|done..].
  specialize (Hf a p1 Hm). destruct (f a (mk toks p1)) as [[b|e|] self2].
  - destruct Hf as [? ?]. simpl in *. split; [done|]. simpl. lia.
  - done.
  - done.
Qed.

Lemma safe_ret {A} p (a : A) :
  (p ≤ length toks)%nat → safe p (ret a (mk toks p)).
Proof. intros Hp. split; simpl; [done|lia]. Qed.

Lemma bind_IndexError {B} p :
  toks !! p = None →
  (∀ f : Token → M B,
     bind _current f (mk toks p) = (Raise IndexError, mk toks p)
     ∧ bind _advance f (mk toks p) = (Raise IndexError, mk toks p))
  ∧ (∀ f : TokenType → M B,
     bind _peek_type f (mk toks p) = (Raise IndexError, mk toks p)).
Proof.
  intros H. split; [intros f; split|intros f];
    unfold bind, _advance, _peek_type, bind, _current; simpl; by rewrite H.
Qed.

Lemma parse_safe fuel :
  (∀ p, (p ≤ length toks)%nat → (3 * (length toks - p) + 3 ≤ fuel)%nat →
     safe p (parse_expr fuel (mk toks p)))
  ∧ (∀ p node, (p ≤ length toks)%nat →
       (3 * (length toks - p) + 1 ≤ fuel)%nat →
       safe p (parse_expr_loop fuel node (mk toks p)))
  ∧ (∀ p, (p ≤ length toks)%nat → (3 * (length toks - p) + 2 ≤ fuel)%nat →
     safe p (parse_term fuel (mk toks p)))
  ∧ (∀ p node, (p ≤ length toks)%nat →
       (3 * (length toks - p) + 1 ≤ fuel)%nat →
       safe p (parse_term_loop fuel node (mk toks p)))
  ∧ (∀ p, (p ≤ length toks)%nat → (3 * (length toks - p) + 1 ≤ fuel)%nat →
     safe p (parse_factor fuel (mk toks p))).
Proof.
  induction fuel as [|fuel (IHe & IHel & IHt & IHtl & IHf)].
  { split_and!; intros; lia. }
  cbn [parse_expr parse_expr_loop parse_term parse_term_loop parse_factor].
  split_and!.
  - intros p Hp Hfuel. apply safe_bind; [apply IHt; lia|].
    intros node p1 Hp1. apply IHel; lia.
  - intros p node Hp Hfuel. destruct (toks !! p) as [tok|] eqn:Htok.
    2:{ rewrite (proj2 (bind_IndexError p Htok)). split; [done|by right]. }
    pose proof (lookup_lt_Some _ _ _ Htok).
    rewrite (bind__peek_type toks _ _ _ Htok). case_bool_decide.
    + rewrite (bind__advance toks _ _ _ Htok).
      assert (safe (p + 1)
        (bind (parse_term fuel)
           (λ right, parse_expr_loop fuel
                       (BinaryOpNode (value tok) node right))
           (mk toks (p + 1)))) as [? Hs].
      { apply safe_bind; [apply IHt; lia|].
        intros right p1 Hp1. apply IHel; lia. }
      split; [done|]. destruct (bind _ _ _) as [[?|?|] ?]; simpl in *;
        [lia|done..].
    + apply safe_ret. lia.
  - intros p Hp Hfuel. apply safe_bind; [apply IHf; lia|].
    intros node p1 Hp1. apply IHtl; lia.
  - intros p node Hp Hfuel. destruct (toks !! p) as [tok|] eqn:Htok.
    2:{ rewrite (proj2 (bind_IndexError p Htok)). split; [done|by right]. }
    pose proof (lookup_lt_Some _ _ _ Htok).
    rewrite (bind__peek_type toks _ _ _ Htok). case_bool_decide.
    + rewrite (bind__advance toks _ _ _ Htok).
      assert (safe (p + 1)
        (bind (parse_factor fuel)
           (λ right, parse_term_loop fuel
                       (BinaryOpNode (value tok) node right))
           (mk toks (p + 1)))) as [? Hs].
      { apply safe_bind; [apply IHf; lia|].
        intros right p1 Hp1. apply IHtl; lia. }
      split; [done|]. destruct (bind _ _ _) as [[?|?|] ?]; simpl in *;
        [lia|done..].
    + apply safe_ret. lia.
  - intros p Hp Hfuel. destruct (toks !! p) as [tok|] eqn:Htok.
    2:{ rewrite (proj1 (proj1 (bind_IndexError p Htok) _)).
        split; [done|by right]. }
    pose proof (lookup_lt_Some _ _ _ Htok).
    rewrite (bind__current toks _ _ _ Htok). case_bool_decide.
    { rewrite (bind__advance toks _ _ _ Htok). split; simpl; [done|lia]. }
    case_bool_decide; [|split; simpl; [done|left; by eexists]].
    rewrite (bind__eat toks _ _ _ _ Htok), bool_decide_false by (by intros ?).
    assert (safe (p + 1)
      (bind (parse_expr fuel)
         (λ inner, bind (_eat RPAREN) (λ _, ret (GroupNode inner)))
         (mk toks (p + 1)))) as [? Hs].
    { apply safe_bind; [apply IHe; lia|].
      intros inner p1 Hp1. destruct (toks !! p1) as [tok1|] eqn:Htok1.
      - pose proof (lookup_lt_Some _ _ _ Htok1).
        rewrite (bind__eat toks _ _ _ _ Htok1). case_bool_decide.
        + split; simpl; [done|left; by eexists].
        + split; simpl; [done|lia].
      - unfold bind, _eat, bind, _current; simpl. rewrite Htok1.
        split; [done|by right]. }
    split; [done|]. destruct (bind _ _ _) as [[?|?|] ?]; simpl in *;
      [lia|done..].
Qed.

End parser_total.

(** X10. On any token list [parse] returns a tree or raises: a
    [ParseError], or an [IndexError] from reading past the end of the
    list.  It reads past the end only if the list holds no [EOF] token, and
    on such a list it never returns a tree. *)
Theorem parse_outcome toks :
  ((∃ tree, parse toks = Ok tree)
   ∨ (∃ msg, parse toks = Raise (ParseError msg))
   ∨ parse toks = Raise IndexError)
  ∧ (parse toks = Raise IndexError → ¬ ∃ tok, tok ∈ toks ∧ type tok = EOF)
  ∧ ((¬ ∃ tok, tok ∈ toks ∧ type tok = EOF) → ∀ tree, parse toks ≠ Ok tree).
Proof.
  split_and!.
  - assert (safe toks 0
      (Parser.parse_with (3 * length toks + 3) (Parser.mk toks 0)))
      as [_ Hs].
    { apply safe_bind; [apply parse_safe; lia|].
      intros tree p1 Hp1. destruct (toks !! p1) as [tok1|] eqn:Htok1.
      - pose proof (lookup_lt_Some _ _ _ Htok1).
        rewrite (bind__eat toks _ _ _ _ Htok1). case_bool_decide.
        + split; simpl; [done|left; by eexists].
        + split; simpl; [done|lia].
      - unfold Parser.bind, Parser._eat, Parser.bind, Parser._current; simpl.
        rewrite Htok1. split; [done|by right]. }
    unfold parse, Parser.parse, Parser.__init__. cbn [Parser.tokens].
    destruct (Parser.parse_with _ _) as [[tree|e|] self]; simpl in *.
    + left. by exists tree.
    + destruct Hs as [[msg ->]| ->]; [right; left; by exists msg|by right; right].
    + done.
  - intros H Heof. apply Parser_parse_spec in Heof. unfold parse in H.
    destruct (Parser.parse _) as [[tree|e|] self]; simpl in H; simplify_eq.
    by destruct Heof as (? & ? & _ & _ & [(? & ? & _)|[? _]]).
  - intros Hno tree H. unfold parse in H.
    destruct (Parser.parse _) as [r self] eqn:Hp. simpl in H. subst r.
    by apply parse_Ok_has_EOF in Hp.
Qed.

Lemma parse_outcome_witness :
  parse [mkToken NUMBER (py "1"); mkToken PLUS (py "+")]
  ≠ Ok (NumberNode (py "1")).
Proof.
  apply (parse_outcome [mkToken NUMBER (py "1"); mkToken PLUS (py "+")]).
  intros (tok & Hin & Hty). by elem_of_cases Hin; subst.
Defined.

Example parse_without_EOF :
  parse [] = Raise IndexError
  ∧ parse [mkToken NUMBER (py "1")] = Raise IndexError
  ∧ parse [mkToken PLUS (py "+")]
    = Raise (ParseError (ExpectedFactor (mkToken PLUS (py "+")))).
Proof. by vm_compute. Qed.

(** ** The trees of the parser *)

(** What the fields of a tree hold: digits in a [NumberNode], one of the
    four operators in a [BinaryOpNode]. *)
Fixpoint node_wf (node : Node) : Prop :=
  match node with
  | NumberNode value =>
    value ≠ [] ∧ Forall (λ c, isdigit c = true) value
  | BinaryOpNode node_op node_left node_right =>
    node_op ∈ [py "+"; py "-"; py "*"; py "/"]
    ∧ node_wf node_left ∧ node_wf node_right
  | GroupNode expr => node_wf expr
  end.

(** The characters of the numbers of a tree, from left to right. *)
Fixpoint number_chars (node : Node) : str :=
  match node with
  | NumberNode value => value
  | BinaryOpNode _ node_left node_right =>
    number_chars node_left ++ number_chars node_right
  | GroupNode expr => number_chars expr
  end.

Lemma grammar_node_wf :
  (∀ ts node, Expr ts node → Forall token_wf ts → node_wf node)
  ∧ (∀ ts node, Term ts node → Forall token_wf ts → node_wf node)
  ∧ (∀ ts node, Factor ts node → Forall token_wf ts → node_wf node).
Proof.
  assert (∀ op tys, token_wf op → type op ∈ tys →
            tys ⊆ [PLUS; MINUS; STAR; SLASH] →
            value op ∈ [py "+"; py "-"; py "*"; py "/"]) as Hop.
  { intros op tys Hwf Hin Hsub. apply Hsub in Hin.
    apply token_wf_value in Hwf; [|done].
    elem_of_cases Hwf; injection Hwf as _ ->; compute_done. }
  apply grammar_ind; simpl.
  - auto.
  - intros ts1 op ts2 l r _ IHl Hin _ IHr
      [Hwf1 [Hwf Hwf2]%Forall_cons_1]%Forall_app.
    split_and!; [|by auto..]. eapply Hop; [done..|].
    intros x Hx. elem_of_cases Hx; subst; compute_done.
  - auto.
  - intros ts1 op ts2 l r _ IHl Hin _ IHr
      [Hwf1 [Hwf Hwf2]%Forall_cons_1]%Forall_app.
    split_and!; [|by auto..]. eapply Hop; [done..|].
    intros x Hx. elem_of_cases Hx; subst; compute_done.
  - intros [ty v] Hty [Hwf _]%Forall_cons_1. unfold token_wf in Hwf.
    simpl in *. subst ty.
    destruct Hwf as [(_ & ? & ?)|(ch & -> & Hch)]; [done|].
    apply _CHAR_MAP_lookup in Hch. by elem_of_cases Hch.
  - intros lp ts rp inner _ _ IH _ [_ [??]%Forall_app]%Forall_cons_1.
    by apply IH.
Qed.

Lemma grammar_number_chars :
  (∀ ts node, Expr ts node → number_chars node ⊆ concat (value <$> ts))
  ∧ (∀ ts node, Term ts node → number_chars node ⊆ concat (value <$> ts))
  ∧ (∀ ts node, Factor ts node → number_chars node ⊆ concat (value <$> ts)).
Proof.
  apply grammar_ind; simpl.
  - auto.
  - intros ts1 op ts2 l r _ IHl _ _ IHr c Hc.
    rewrite fmap_app, concat_app. simpl.
    apply elem_of_app in Hc as [Hc|Hc]; apply elem_of_app; [left|right].
    + by apply IHl.
    + apply elem_of_app. right. by apply IHr.
  - auto.
  - intros ts1 op ts2 l r _ IHl _ _ IHr c Hc.
    rewrite fmap_app, concat_app. simpl.
    apply elem_of_app in Hc as [Hc|Hc]; apply elem_of_app; [left|right].
    + by apply IHl.
    + apply elem_of_app. right. by apply IHr.
  - intros tok _ c Hc. by rewrite app_nil_r.
  - intros lp ts rp inner _ _ IH _ c Hc. apply elem_of_app. right.
    rewrite fmap_app, concat_app. apply elem_of_app. left. by apply IH.
Qed.

(** X11. Every tree that the parser returns on the tokens of an input
    keeps the invariants of the node types: a [NumberNode] holds a
    non-empty string of [isdigit] characters and a [BinaryOpNode] holds
    one of [+ - * /]. *)
Theorem parsed_tree_wf latex tree :
  parse_latex latex = Ok tree → node_wf tree.
Proof.
  unfold parse_latex. intros H. inv_bind H.
  destruct (parse_Ok _ _ _ Ha H) as (body & -> & Hwf & Hexpr).
  by eapply (proj1 grammar_node_wf).
Qed.

Lemma parsed_tree_wf_witness :
  node_wf
    (BinaryOpNode (py "/")
       (GroupNode
          (BinaryOpNode (py "-") (NumberNode (py "10"))
             (NumberNode (py "2"))))
       (NumberNode (py "4"))).
Proof. apply (parsed_tree_wf (py "(10 - 2) / 4")). by vm_compute. Defined.

(** ** The encoder: missing keys *)

(** The trees whose digits and operators the two tables know. *)
Fixpoint encodable (node : Node) : Prop :=
  match node with
  | NumberNode value => Forall ascii_digit value
  | BinaryOpNode node_op node_left node_right =>
    encodable node_left
    ∧ node_op ∈ [py "+"; py "-"; py "*"; py "/"]
    ∧ encodable node_right
  | GroupNode expr => encodable expr
  end.

(** The operators of a tree. *)
Fixpoint node_ops (node : Node) : list str :=
  match node with
  | NumberNode _ => []
  | BinaryOpNode node_op node_left node_right =>
    node_ops node_left ++ node_op :: node_ops node_right
  | GroupNode expr => node_ops expr
  end.

(** The key that a [KeyError] of the encoder on [node] reports. *)
Definition missing_key (node : Node) (key : str) : Prop :=
  (∃ d, key = [d] ∧ d ∈ number_chars node ∧ ¬ ascii_digit d)
  ∨ (key ∈ node_ops node ∧ key ∉ [py "+"; py "-"; py "*"; py "/"]).

Lemma DIGIT_MAP_None d :
  BrailleVisitor.DIGIT_MAP !! d = None ↔ ¬ ascii_digit d.
Proof.
  split.
  - intros H [b Hb]%DIGIT_MAP_ascii. congruence.
  - intros H. destruct (BrailleVisitor.DIGIT_MAP !! d) as [b|] eqn:Hb; [|done].
    by apply DIGIT_MAP_lookup in Hb as [? _].
Qed.

Lemma OP_MAP_is_Some op :
  is_Some (BrailleVisitor.OP_MAP !! op)
  ↔ op ∈ [py "+"; py "-"; py "*"; py "/"].
Proof.
  split.
  - intros [sym H]. by apply OP_MAP_lookup in H as [? _].
  - intros H. elem_of_cases H; subst; by vm_compute; eauto.
Qed.

Lemma join_digits_outcome num_str :
  match BrailleVisitor.join_digits num_str with
  | Ok _ => Forall ascii_digit num_str
  | Raise e =>
    ∃ d, e = KeyError [d] ∧ d ∈ num_str ∧ ¬ ascii_digit d
  | OutOfFuel => False
  end.
Proof.
  induction num_str as [|d ds IH]; simpl; [done|].
  unfold BrailleVisitor.getitem.
  destruct (BrailleVisitor.DIGIT_MAP !! d) as [b|] eqn:Hd; simpl.
  - apply DIGIT_MAP_lookup in Hd as [Hd _].
    destruct (BrailleVisitor.join_digits ds) as [rest|e|]; simpl; [| |done].
    + by constructor.
    + destruct IH as (d' & -> & ? & ?). exists d'. split_and!; [done| |done].
      by right.
  - exists d. split_and!; [done|by left|by apply DIGIT_MAP_None].
Qed.

Lemma _visit_outcome_aux node need_indicator :
  match BrailleVisitor._visit node need_indicator with
  | Ok _ => encodable node
  | Raise e => ¬ encodable node ∧ ∃ key, e = KeyError key ∧ missing_key node key
  | OutOfFuel => False
  end.
Proof.
  revert need_indicator.
  induction node as [value|op l IHl r IHr|expr IH]; intros need_indicator;
    cbn [BrailleVisitor._visit encodable].
  - unfold BrailleVisitor._number_to_braille.
    pose proof (join_digits_outcome value) as H.
    destruct (BrailleVisitor.join_digits value) as [digits|e|]; simpl;
      [done| |done].
    destruct H as (d & -> & Hin & Hd). split.
    + rewrite Forall_forall. intros Hall. by apply Hd, Hall.
    + exists [d]. split; [done|]. left. by exists d.
  - specialize (IHl need_indicator). specialize (IHr true).
    destruct (BrailleVisitor._visit l need_indicator) as [left|e|]; simpl;
      [| |done].
    2:{ destruct IHl as (Hne & key & -> & Hkey). split; [by intros [? _]|].
        exists key. split; [done|].
        destruct Hkey as [(d & -> & Hin & Hd)|[Hin Hk]]; [left|right].
        - exists d. split_and!; [done| |done]. simpl. apply elem_of_app.
          by left.
        - split; [|done]. simpl. apply elem_of_app. by left. }
    unfold BrailleVisitor.getitem.
    destruct (BrailleVisitor.OP_MAP !! op) as [sym|] eqn:Hop; simpl.
    2:{ assert (op ∉ [py "+"; py "-"; py "*"; py "/"]) as Hnot.
        { intros [? ?]%OP_MAP_is_Some. congruence. }
        split; [by intros (_ & ? & _)|]. exists op. split; [done|]. right.
        split; [|done]. simpl. apply elem_of_app. right. by left. }
    assert (op ∈ [py "+"; py "-"; py "*"; py "/"]) as Hin.
    { apply OP_MAP_is_Some. by eexists. }
    destruct (BrailleVisitor._visit r true) as [right|e|]; simpl;
      [done| |done].
    destruct IHr as (Hne & key & -> & Hkey). split; [by intros (_ & _ & ?)|].
    exists key. split; [done|].
    destruct Hkey as [(d & -> & Hd & Hnd)|[Hk Hnk]]; [left|right].
    + exists d. split_and!; [done| |done]. simpl. apply elem_of_app.
      by right.
    + split; [|done]. simpl. apply elem_of_app. right. by right.
  - specialize (IH true).
    by destruct (BrailleVisitor._visit expr true) as [inner|e|].
Qed.

(** X12. The encoder returns a string exactly on the trees whose digits
    are keys of [DIGIT_MAP] and whose operators are keys of [OP_MAP],
    whatever the indicator flag; on every other tree it raises a
    [KeyError], with a character of a number that is no digit [0] to [9],
    or with an operator of the tree that is none of [+ - * /]. *)
Theorem _visit_outcome node need_indicator :
  ((∃ out, BrailleVisitor._visit node need_indicator = Ok out)
   ↔ encodable node)
  ∧ ((∃ key, BrailleVisitor._visit node need_indicator = Raise (KeyError key)
             ∧ missing_key node key)
     ↔ ¬ encodable node).
Proof.
  pose proof (_visit_outcome_aux node need_indicator) as H.
  destruct (BrailleVisitor._visit node need_indicator) as [out|e|];
    [| |done].
  - split; split; try done.
    + intros _. by exists out.
    + by intros (? & ? & _).
  - destruct H as (Hne & key & -> & Hkey). split; split; try done.
    + by intros [? ?].
    + intros _. by exists key.
Qed.

Lemma _visit_outcome_witness :
  (∃ key,
     BrailleVisitor._visit
       (BinaryOpNode (py "^") (NumberNode (py "2")) (NumberNode (py "3")))
       true
     = Raise (KeyError key)
     ∧ missing_key
         (BinaryOpNode (py "^") (NumberNode (py "2")) (NumberNode (py "3")))
         key)
  ↔ ¬ encodable
        (BinaryOpNode (py "^") (NumberNode (py "2")) (NumberNode (py "3"))).
Proof. apply _visit_outcome. Defined.

Example _visit_missing_operator :
  BrailleVisitor._visit
    (BinaryOpNode (py "^") (NumberNode (py "2")) (NumberNode (py "3"))) true
  = Raise (KeyError (py "^")).
Proof. by vm_compute. Qed.

(** ** The encoder: the indicator flag *)

(** The tree starts with a parenthesis: its leftmost leaf stands in a
    [GroupNode] that is reached through left operands only. *)
Fixpoint starts_with_group (node : Node) : bool :=
  match node with
  | NumberNode _ => false
  | BinaryOpNode _ node_left _ => starts_with_group node_left
  | GroupNode _ => true
  end.

(** X13. The [visit_*] methods of [BrailleVisitor] itself return what
    [convert] returns.  In [_visit], the flag decides about one symbol:
    with [need_indicator = False] the encoder returns the output of
    [convert] without its first symbol, the indicator of the first number,
    or, on a tree that starts with a parenthesis, the very output of
    [convert]; and it raises what [convert] raises. *)
Theorem need_indicator_false node :
  BrailleVisitor.accept node = BrailleVisitor.convert node
  ∧ match BrailleVisitor._visit node false with
    | Ok out =>
      BrailleVisitor.convert node
      = Ok (if starts_with_group node then out
            else BrailleVisitor.NUMBER_INDICATOR ++ out)
    | Raise e => BrailleVisitor.convert node = Raise e
    | OutOfFuel => False
    end.
Proof.
  split; [by destruct node|]. unfold BrailleVisitor.convert.
  induction node as [value|op l IHl r IHr|expr IH];
    cbn [BrailleVisitor._visit starts_with_group].
  - unfold BrailleVisitor._number_to_braille.
    pose proof (join_digits_outcome value).
    by destruct (BrailleVisitor.join_digits value).
  - destruct (BrailleVisitor._visit l false) as [left|e|]; [| |done].
    + rewrite IHl. simpl. unfold BrailleVisitor.getitem.
      destruct (BrailleVisitor.OP_MAP !! op) as [sym|]; simpl; [|done].
      pose proof (_visit_total r true).
      destruct (BrailleVisitor._visit r true) as [right|e|]; simpl;
        [|done..].
      destruct (starts_with_group l); [done|]. by rewrite <-?app_assoc.
    + by rewrite IHl.
  - pose proof (_visit_total expr true).
    by destruct (BrailleVisitor._visit expr true).
Qed.

Lemma need_indicator_false_witness :
  BrailleVisitor._visit
    (BinaryOpNode (py "+") (NumberNode (py "3")) (NumberNode (py "5"))) false
  = Ok (py "⠉⠢⠼⠑")
  ∧ BrailleVisitor.convert
      (BinaryOpNode (py "+") (NumberNode (py "3")) (NumberNode (py "5")))
    = Ok (BrailleVisitor.NUMBER_INDICATOR ++ py "⠉⠢⠼⠑").
Proof.
  split; [by vm_compute|].
  pose proof (proj2 (need_indicator_false
    (BinaryOpNode (py "+") (NumberNode (py "3")) (NumberNode (py "5")))))
    as H.
  by vm_compute in H |- *.
Defined.

(** ** The output, token by token *)

(** The symbols that stand for one token, from the tables of the
    encoder. *)
Definition transcribe (tok : Token) : Result str :=
  match type tok with
  | NUMBER => BrailleVisitor._number_to_braille (value tok) true
  | LPAREN => Ok BrailleVisitor.LPAREN_BRAILLE
  | RPAREN => Ok BrailleVisitor.RPAREN_BRAILLE
  | EOF => Ok []
  | _ => BrailleVisitor.getitem BrailleVisitor.OP_MAP (value tok) id
  end.

(** [pieces] are the symbols of the tokens [ts], token by token. *)
Definition transcription (ts : list Token) (pieces : list str) : Prop :=
  Forall2 (λ tok piece, transcribe tok = Ok piece) ts pieces.

Lemma grammar_transcription :
  (∀ ts node, Expr ts node →
     ∀ out, BrailleVisitor._visit node true = Ok out →
       ∃ pieces, transcription ts pieces ∧ out = concat pieces)
  ∧ (∀ ts node, Term ts node →
     ∀ out, BrailleVisitor._visit node true = Ok out →
       ∃ pieces, transcription ts pieces ∧ out = concat pieces)
  ∧ (∀ ts node, Factor ts node →
     ∀ out, BrailleVisitor._visit node true = Ok out →
       ∃ pieces, transcription ts pieces ∧ out = concat pieces).
Proof.
  assert (∀ ts1 (op : Token) ts2 l r out,
    type op ∈ [PLUS; MINUS; STAR; SLASH] →
    (∀ out, BrailleVisitor._visit l true = Ok out →
       ∃ pieces, transcription ts1 pieces ∧ out = concat pieces) →
    (∀ out, BrailleVisitor._visit r true = Ok out →
       ∃ pieces, transcription ts2 pieces ∧ out = concat pieces) →
    BrailleVisitor._visit (BinaryOpNode (value op) l r) true = Ok out →
    ∃ pieces, transcription (ts1 ++ op :: ts2) pieces ∧ out = concat pieces)
    as Hbin.
  { intros ts1 op ts2 l r out Hop IHl IHr H.
    cbn [BrailleVisitor._visit] in H. inv_bind H. subst out.
    destruct (IHl _ Ha) as (p1 & Hp1 & ->).
    destruct (IHr _ Ha1) as (p2 & Hp2 & ->).
    exists (p1 ++ a0 :: p2). split.
    - apply Forall2_app; [done|]. constructor; [|done].
      unfold transcribe. by elem_of_cases Hop; rewrite Hop.
    - by rewrite concat_app. }
  apply grammar_ind.
  - auto.
  - intros ts1 op ts2 l r _ IHl Hop _ IHr out H.
    eapply Hbin; [|done..]. elem_of_cases Hop; rewrite Hop; compute_done.
  - auto.
  - intros ts1 op ts2 l r _ IHl Hop _ IHr out H.
    eapply Hbin; [|done..]. elem_of_cases Hop; rewrite Hop; compute_done.
  - intros tok Hty out H. cbn [BrailleVisitor._visit] in H.
    exists [out]. split; [|simpl; by rewrite app_nil_r].
    constructor; [|constructor]. unfold transcribe. by rewrite Hty.
  - intros lp ts rp inner Hlp _ IH Hrp out H.
    cbn [BrailleVisitor._visit] in H. inv_bind H. subst out.
    destruct (IH _ Ha) as (p & Hp & ->).
    exists (BrailleVisitor.LPAREN_BRAILLE :: p ++ [BrailleVisitor.RPAREN_BRAILLE]).
    split.
    + constructor; [unfold transcribe; by rewrite Hlp|].
      apply Forall2_app; [done|]. constructor; [|constructor].
      unfold transcribe. by rewrite Hrp.
    + rewrite concat_cons, concat_app. simpl. by rewrite ?app_nil_r.
Qed.

Lemma output_token_by_token_pieces latex body out :
  tokenize latex = Ok (body ++ [mkToken EOF []]) →
  latex_to_korean_braille latex = Ok out →
  ∃ pieces, transcription body pieces ∧ out = concat pieces.
Proof.
  intros Htok H. unfold latex_to_korean_braille in H. rewrite Htok in H.
  cbn [mbind Result_bind] in H. inv_bind H.
  destruct (parse_Ok _ _ _ Htok Ha) as (body' & Heq & _ & Hexpr).
  apply app_inj_tail in Heq as [<- _].
  by eapply (proj1 grammar_transcription).
Qed.

(** X14. The output of a conversion is the transcription of the tokens of
    the input one by one, in their order: each number as the indicator and
    its digits, each operator and each parenthesis as its symbols.  The
    tree decides whether the input is accepted, and nothing of the
    output. *)
Theorem output_token_by_token latex body out :
  tokenize latex = Ok (body ++ [mkToken EOF []]) →
  latex_to_korean_braille latex = Ok out →
  ∃ pieces, transcription body pieces ∧ out = concat pieces.
Proof.
  intros Htok H. unfold latex_to_korean_braille in H. rewrite Htok in H.
  cbn [mbind Result_bind] in H. inv_bind H.
  destruct (parse_Ok _ _ _ Htok Ha) as (body' & Heq & _ & Hexpr).
  apply app_inj_tail in Heq as [<- _].
  by eapply (proj1 grammar_transcription).
Qed.

Lemma output_token_by_token_witness :
  ∃ pieces,
    transcription
      [mkToken LPAREN (py "("); mkToken NUMBER (py "10");
       mkToken SLASH (py "/"); mkToken NUMBER (py "2");
       mkToken RPAREN (py ")")] pieces
    ∧ py "⠦⠼⠁⠚⠌⠌⠼⠃⠴" = concat pieces.
Proof.
  apply (output_token_by_token (py "(10 / 2)")); by vm_compute.
Defined.

Lemma transcribe_wf tok piece :
  token_wf tok → transcribe tok = Ok piece →
  (type tok = NUMBER
   ∧ ∃ digs, piece = indicator :: digs ∧ digs ≠ []
             ∧ Forall2 (λ d c, BrailleVisitor.DIGIT_MAP !! d = Some [c])
                 (value tok) digs)
  ∨ (type tok, value tok, piece)
    ∈ [(PLUS, py "+", py "⠢"); (MINUS, py "-", py "⠔");
       (STAR, py "*", py "⠡"); (SLASH, py "/", py "⠌⠌");
       (LPAREN, py "(", py "⠦"); (RPAREN, py ")", py "⠴")].
Proof.
  destruct tok as [ty v]. unfold token_wf, transcribe; simpl.
  intros [(-> & Hne & _)|(ch & -> & Hch)] H.
  - left. split; [done|]. unfold BrailleVisitor._number_to_braille in H.
    inv_bind H. subst piece. exists a. split_and!; [done| |].
    + apply join_digits_numeral in Ha as [Hlen _]. intros ->.
      by destruct v.
    + by apply join_digits_Ok.
  - right. apply _CHAR_MAP_lookup in Hch.
    elem_of_cases Hch; injection Hch as -> ->; vm_compute in H;
      injection H as <-; compute_done.
Qed.

(** The number of output symbols that stand for a token. *)
Definition token_width (tok : Token) : nat :=
  match type tok with
  | NUMBER => S (length (value tok))
  | SLASH => 2
  | EOF => 0
  | _ => 1
  end.

Lemma transcription_size ts pieces :
  Forall token_wf ts → transcription ts pieces →
  length (concat pieces) = sum_list (token_width <$> ts)
  ∧ count indicator (concat pieces)
    = length (filter (λ tok, type tok = NUMBER) ts).
Proof.
  intros Hwf H. induction H as [|tok piece ts pieces Htok _ IH]; [done|].
  apply Forall_cons_1 in Hwf as [Hwf Hwfs].
  destruct (IH Hwfs) as [IHl IHc].
  rewrite concat_cons, length_app, count_app, fmap_cons, IHl, IHc. simpl.
  destruct (transcribe_wf _ _ Hwf Htok)
    as [(Hty & digs & -> & _ & Hdigs)|Hin].
  - rewrite filter_cons_True by done. unfold token_width. rewrite Hty.
    split; [simpl; by rewrite (Forall2_length _ _ _ Hdigs)|].
    apply join_digits_Ok, join_digits_numeral in Hdigs as [_ Hnum].
    change (indicator :: digs) with ([indicator] ++ digs).
    rewrite count_app, (count_absent _ digs); [done|].
    eapply Forall_impl; [done|]. intros c Hc ->.
    by destruct indicator_not_numeral.
  - destruct tok as [ty v].
    elem_of_cases Hin; injection Hin as -> -> ->;
      (rewrite filter_cons_False by done); by vm_compute.
Qed.

(** X15. The size of the output is fixed by the tokens of the input: one
    symbol for the indicator of each number and one for each of its
    digits, two symbols for each [/], one for each other operator and each
    parenthesis; and the output holds as many indicators as the input
    holds numbers. *)
Theorem output_size latex body out :
  tokenize latex = Ok (body ++ [mkToken EOF []]) →
  latex_to_korean_braille latex = Ok out →
  length out = sum_list (token_width <$> body)
  ∧ count indicator out = length (filter (λ tok, type tok = NUMBER) body).
Proof.
  intros Htok H.
  destruct (output_token_by_token_pieces latex body out Htok H)
    as (pieces & Hp & ->).
  destruct (tokenize_Ok _ _ Htok) as (body' & Heq & Hwf & _).
  apply app_inj_tail in Heq as [<- _]. by apply transcription_size.
Qed.

Lemma output_size_witness :
  length (py "⠦⠼⠁⠚⠌⠌⠼⠃⠴")
  = sum_list
      (token_width <$>
         [mkToken LPAREN (py "("); mkToken NUMBER (py "10");
          mkToken SLASH (py "/"); mkToken NUMBER (py "2");
          mkToken RPAREN (py ")")])
  ∧ count indicator (py "⠦⠼⠁⠚⠌⠌⠼⠃⠴")
    = length
        (filter (λ tok, type tok = NUMBER)
           [mkToken LPAREN (py "("); mkToken NUMBER (py "10");
            mkToken SLASH (py "/"); mkToken NUMBER (py "2");
            mkToken RPAREN (py ")")]).
Proof. apply (output_size (py "(10 / 2)")); by vm_compute. Defined.

(** ** Reading the tokens back from the output *)

Lemma numeral_run_unique (digs1 digs2 rest1 rest2 : str) :
  Forall numeral digs1 → Forall numeral digs2 →
  (∀ c, head rest1 = Some c → ¬ numeral c) →
  (∀ c, head rest2 = Some c → ¬ numeral c) →
  digs1 ++ rest1 = digs2 ++ rest2 →
  digs1 = digs2 ∧ rest1 = rest2.
Proof.
  intros H1. revert digs2.
  induction H1 as [|d digs1 Hd _ IH]; intros digs2 H2 Hr1 Hr2 Heq.
  - destruct H2 as [|d' digs2 Hd' _]; [done|]. simpl in Heq. subst rest1.
    by destruct (Hr1 d').
  - destruct H2 as [|d' digs2 Hd' H2]; simpl in Heq.
    + subst rest2. by destruct (Hr2 d).
    + injection Heq as <- Heq. by destruct (IH digs2 H2 Hr1 Hr2 Heq) as [-> ->].
Qed.

Lemma DIGIT_MAP_injective d d' c :
  BrailleVisitor.DIGIT_MAP !! d = Some [c] →
  BrailleVisitor.DIGIT_MAP !! d' = Some [c] → d = d'.
Proof.
  intros H H'. apply elem_of_list_to_map_2 in H, H'.
  elem_of_cases H; elem_of_cases H'; injection H as -> Hc;
    injection H' as -> Hc'; vm_compute in Hc, Hc'; congruence.
Qed.

Lemma DIGIT_MAP_injective_list v v' digs :
  Forall2 (λ d c, BrailleVisitor.DIGIT_MAP !! d = Some [c]) v digs →
  Forall2 (λ d c, BrailleVisitor.DIGIT_MAP !! d = Some [c]) v' digs →
  v = v'.
Proof.
  intros H. revert v'. induction H as [|d c v digs Hd _ IH]; intros v' H'.
  - by apply Forall2_nil_inv_r in H'.
  - apply Forall2_cons_inv_r in H' as (d' & v'' & Hd' & H' & ->).
    by rewrite (DIGIT_MAP_injective _ _ _ Hd Hd'), (IH _ H').
Qed.

Ltac eval_py :=
  repeat match goal with
  | H : context [py ?s] |- _ =>
    let l := eval vm_compute in (py s) in change (py s) with l in H
  end.

Lemma transcription_head ts pieces c :
  Forall token_wf ts → transcription ts pieces →
  head (concat pieces) = Some c → ¬ numeral c.
Proof.
  intros Hwf H. destruct H as [|tok piece ts pieces Htok _]; [done|].
  apply Forall_cons_1 in Hwf as [Hwf _].
  destruct (transcribe_wf _ _ Hwf Htok) as [(_ & digs & -> & _)|Hin].
  - intros [= <-]. apply indicator_not_numeral.
  - destruct tok as [ty v]. rewrite numeral_spec.
    elem_of_cases Hin; injection Hin as -> -> ->; intros [= <-];
      compute_done.
Qed.

Lemma transcription_injective ts1 ts2 pieces1 pieces2 :
  Forall token_wf ts1 → Forall token_wf ts2 →
  transcription ts1 pieces1 → transcription ts2 pieces2 →
  concat pieces1 = concat pieces2 →
  ts1 = ts2.
Proof.
  intros Hwf1 Hwf2 H1. revert ts2 pieces2 Hwf2.
  induction H1 as [|tok1 piece1 ts1 pieces1 Htok1 H1 IH];
    intros ts2 pieces2 Hwf2 H2 Heq.
  - destruct H2 as [|tok2 piece2 ts2 pieces2 Htok2 _]; [done|].
    apply Forall_cons_1 in Hwf2 as [Hwf2 _]. exfalso.
    destruct (transcribe_wf _ _ Hwf2 Htok2) as [(_ & digs & -> & _)|Hin];
      [done|].
    destruct tok2 as [ty v].
    by elem_of_cases Hin; injection Hin as -> -> ->.
  - apply Forall_cons_1 in Hwf1 as [Hwf1 Hwfs1].
    destruct H2 as [|tok2 piece2 ts2 pieces2 Htok2 H2].
    { exfalso.
      destruct (transcribe_wf _ _ Hwf1 Htok1) as [(_ & digs & -> & _)|Hin];
        [done|].
      destruct tok1 as [ty v].
      by elem_of_cases Hin; injection Hin as -> -> ->. }
    apply Forall_cons_1 in Hwf2 as [Hwf2 Hwfs2].
    rewrite !concat_cons in Heq.
    specialize (IH Hwfs1).
    pose proof (λ c, transcription_head _ _ c Hwfs1 H1) as Hh1.
    pose proof (λ c, transcription_head _ _ c Hwfs2 H2) as Hh2.
    destruct tok1 as [ty1 v1], tok2 as [ty2 v2].
    destruct (transcribe_wf _ _ Hwf1 Htok1)
      as [(Hty1 & digs1 & -> & _ & Hd1)|Hin1];
      destruct (transcribe_wf _ _ Hwf2 Htok2)
        as [(Hty2 & digs2 & -> & _ & Hd2)|Hin2]; simpl in *.
    + injection Heq as Heq.
      pose proof (proj2 (join_digits_numeral _ _
        (proj2 (join_digits_Ok _ _) Hd1))) as Hn1.
      pose proof (proj2 (join_digits_numeral _ _
        (proj2 (join_digits_Ok _ _) Hd2))) as Hn2.
      apply numeral_run_unique in Heq as [-> Heq]; [|done..].
      rewrite (DIGIT_MAP_injective_list _ _ _ Hd1 Hd2), Hty1, Hty2.
      f_equal. by eapply IH.
    + exfalso. elem_of_cases Hin2; injection Hin2 as -> -> ->; eval_py;
        by injection Heq.
    + exfalso. elem_of_cases Hin1; injection Hin1 as -> -> ->; eval_py;
        by injection Heq.
    + elem_of_cases Hin1; injection Hin1 as -> -> ->;
        elem_of_cases Hin2; injection Hin2 as -> -> ->; eval_py;
        try (by injection Heq);
        (f_equal; eapply IH; [done..|]; by simplify_eq/=).
Qed.

(** X16. Nothing of the token list is lost in the output: two inputs on
    which the conversion returns the same output have the same tokens, and
    hence the same tree. *)
Theorem conversion_injective latex1 latex2 out :
  latex_to_korean_braille latex1 = Ok out →
  latex_to_korean_braille latex2 = Ok out →
  tokenize latex1 = tokenize latex2
  ∧ parse_latex latex1 = parse_latex latex2.
Proof.
  intros H1 H2.
  assert (tokenize latex1 = tokenize latex2) as Htok.
  { unfold latex_to_korean_braille in H1, H2.
    destruct (tokenize latex1) as [toks1| |] eqn:Ht1; [|done..].
    destruct (tokenize latex2) as [toks2| |] eqn:Ht2; [|done..].
    destruct (tokenize_Ok _ _ Ht1) as (body1 & -> & Hwf1 & _).
    destruct (tokenize_Ok _ _ Ht2) as (body2 & -> & Hwf2 & _).
    assert (latex_to_korean_braille latex1 = Ok out) as H1'
      by (unfold latex_to_korean_braille; by rewrite Ht1).
    assert (latex_to_korean_braille latex2 = Ok out) as H2'
      by (unfold latex_to_korean_braille; by rewrite Ht2).
    destruct (output_token_by_token_pieces _ _ _ Ht1 H1') as (p1 & Hp1 & ->).
    destruct (output_token_by_token_pieces _ _ _ Ht2 H2') as (p2 & Hp2 & Heq).
    by rewrite (transcription_injective _ _ _ _ Hwf1 Hwf2 Hp1 Hp2 Heq). }
  split; [done|]. unfold parse_latex. by rewrite Htok.
Qed.

Lemma conversion_injective_witness :
  tokenize (py "$2+3*4$") = tokenize (py " 2 + 3 * 4 ")
  ∧ parse_latex (py "$2+3*4$") = parse_latex (py " 2 + 3 * 4 ").
Proof.
  apply (conversion_injective _ _ (py "⠼⠃⠢⠼⠉⠡⠼⠙")); by vm_compute.
Defined.

(** ** The outcomes of the conversion *)

Lemma node_wf_number_chars node :
  node_wf node → Forall (λ c, isdigit c = true) (number_chars node).
Proof.
  induction node as [value|op l IHl r IHr|expr IH]; simpl.
  - by intros [_ ?].
  - intros (_ & Hl & Hr). apply Forall_app. auto.
  - done.
Qed.

Lemma node_wf_ops node :
  node_wf node →
  Forall (λ op, op ∈ [py "+"; py "-"; py "*"; py "/"]) (node_ops node).
Proof.
  induction node as [value|op l IHl r IHr|expr IH]; simpl.
  - constructor.
  - intros (Hop & Hl & Hr). apply Forall_app. split; [auto|].
    constructor; auto.
  - done.
Qed.

Lemma grammar_numbers_in_tree :
  (∀ ts node, Expr ts node →
     ∀ tok, tok ∈ ts → type tok = NUMBER → value tok ⊆ number_chars node)
  ∧ (∀ ts node, Term ts node →
     ∀ tok, tok ∈ ts → type tok = NUMBER → value tok ⊆ number_chars node)
  ∧ (∀ ts node, Factor ts node →
     ∀ tok, tok ∈ ts → type tok = NUMBER → value tok ⊆ number_chars node).
Proof.
  apply grammar_ind; simpl.
  - auto.
  - intros ts1 op ts2 l r _ IHl Hop _ IHr tok Hin Hty c Hc.
    apply elem_of_app in Hin as [Hin|Hin]; apply elem_of_app.
    + left. by eapply IHl.
    + apply elem_of_cons in Hin as [->|Hin].
      * rewrite Hty in Hop. by elem_of_cases Hop.
      * right. by eapply IHr.
  - auto.
  - intros ts1 op ts2 l r _ IHl Hop _ IHr tok Hin Hty c Hc.
    apply elem_of_app in Hin as [Hin|Hin]; apply elem_of_app.
    + left. by eapply IHl.
    + apply elem_of_cons in Hin as [->|Hin].
      * rewrite Hty in Hop. by elem_of_cases Hop.
      * right. by eapply IHr.
  - intros tok _ tok' Hin _. by apply list_elem_of_singleton in Hin as ->.
  - intros lp ts rp inner Hlp _ IH Hrp tok Hin Hty.
    apply elem_of_cons in Hin as [->|Hin]; [congruence|].
    apply elem_of_app in Hin as [Hin|Hin]; [by eapply IH|].
    apply list_elem_of_singleton in Hin as ->. congruence.
Qed.

Lemma elem_of_concat {A} (x : A) (ls : list (list A)) :
  x ∈ concat ls → ∃ l, x ∈ l ∧ l ∈ ls.
Proof.
  induction ls as [|l ls IH]; simpl; [by intros ?%elem_of_nil|].
  intros [H|H]%elem_of_app.
  - exists l. split; [done|by left].
  - destruct (IH H) as (l' & ? & ?). exists l'. split; [done|by right].
Qed.

Lemma tokens_digits_in_tree body tree c :
  Forall token_wf body → Expr body tree →
  c ∈ concat (value <$> body) → isdigit c = true →
  c ∈ number_chars tree.
Proof.
  intros Hwf Hexpr Hc Hd.
  apply elem_of_concat in Hc as (v & Hc & Hv).
  apply list_elem_of_fmap in Hv as (tok & -> & Htok).
  rewrite Forall_forall in Hwf. pose proof (Hwf _ Htok) as Hw.
  destruct Hw as [(Hty & _)|(ch & Hv & Hch)].
  - by eapply (proj1 grammar_numbers_in_tree).
  - rewrite Hv in Hc. apply list_elem_of_singleton in Hc as ->.
    apply _CHAR_MAP_lookup in Hch.
    elem_of_cases Hch; injection Hch as -> _; by vm_compute in Hd.
Qed.

(** X17. What the conversion can do on an input.  It returns an output
    only if every [isdigit] character of the normalized input is one of
    [0] to [9]; it raises the lexer's [LexError] on a character of the
    input that the lexer does not accept, a [ParseError] on an input of
    accepted characters, and a [KeyError] from [DIGIT_MAP] on a character
    of the input that [isdigit] accepts and that is none of [0] to [9].
    It raises nothing else, and the operator table never misses a key. *)
Theorem conversion_outcome latex :
  match latex_to_korean_braille latex with
  | Ok out =>
    Forall supported (normalized latex)
    ∧ Forall (λ c, isdigit c = true → ascii_digit c) (normalized latex)
  | Raise (LexError ch p len text) =>
    ch ∈ normalized latex ∧ ¬ supported ch
  | Raise (ParseError msg) => Forall supported (normalized latex)
  | Raise (KeyError key) =>
    Forall supported (normalized latex)
    ∧ ∃ d, key = [d] ∧ d ∈ normalized latex
           ∧ isdigit d = true ∧ ¬ ascii_digit d
  | Raise IndexError => False
  | OutOfFuel => False
  end.
Proof.
  unfold latex_to_korean_braille.
  pose proof (tokenize_spec latex) as Hspec.
  destruct (tokenize latex) as [toks|e|] eqn:Htok; simpl in Hspec;
    cbn [mbind Result_bind]; [| |done].
  2:{ destruct Hspec as (pre & ch & post & Heq & _ & Hch & ->).
      rewrite drop_0 in Heq. split; [|done]. rewrite Heq.
      apply elem_of_app. right. by left. }
  destruct Hspec as (body & Htoks & Hwf & Hsup). simpl in Htoks.
  rewrite drop_0 in Hsup. subst toks.
  pose proof (tokenize_concat_values _ _ Htok) as Hvals.
  rewrite fmap_app, concat_app in Hvals. simpl in Hvals.
  rewrite app_nil_r in Hvals.
  pose proof (parse_tokenized body Hwf) as Hparse. unfold parse.
  destruct (Parser.parse _) as [[tree|e|] self]; simpl; [| |done].
  2:{ by destruct Hparse as (p & tok & _ & _ & [(? & -> & _)|[-> _]]). }
  pose proof (proj1 grammar_node_wf _ _ Hparse Hwf) as Htree.
  pose proof (_visit_outcome_aux tree true) as Hvisit.
  unfold BrailleVisitor.convert.
  destruct (BrailleVisitor._visit tree true) as [out|e|]; [| |done].
  - split; [done|]. apply Forall_forall. intros c Hc Hd.
    assert (c ∈ number_chars tree) as Hin.
    { eapply tokens_digits_in_tree; [done..| |done]. rewrite Hvals.
      apply list_elem_of_filter. split; [|done].
      by apply isdigit_not_isspace. }
    clear -Hvisit Hin. revert Hin.
    induction tree as [value|op l IHl r IHr|expr IH]; simpl in *.
    + rewrite Forall_forall in Hvisit. apply Hvisit.
    + destruct Hvisit as (? & _ & ?). intros [?|?]%elem_of_app; auto.
    + auto.
  - destruct Hvisit as (_ & key & -> & [(d & -> & Hin & Hd)|[Hin Hk]]).
    + split; [done|]. exists d. split_and!; [done| | |done].
      * apply (proj1 grammar_number_chars _ _ Hparse) in Hin.
        rewrite Hvals in Hin. by apply list_elem_of_filter in Hin as [_ ?].
      * apply node_wf_number_chars in Htree.
        rewrite Forall_forall in Htree. by apply Htree.
    + apply node_wf_ops in Htree. rewrite Forall_forall in Htree.
      by destruct Hk; apply Htree.
Qed.

(** ** The structure echo determines the tree *)

Lemma digit_run_unique (v1 v2 rest1 rest2 : str) :
  Forall (λ c, isdigit c = true) v1 → Forall (λ c, isdigit c = true) v2 →
  (∀ c, head rest1 = Some c → isdigit c = false) →
  (∀ c, head rest2 = Some c → isdigit c = false) →
  v1 ++ rest1 = v2 ++ rest2 →
  v1 = v2 ∧ rest1 = rest2.
Proof.
  intros H1. revert v2.
  induction H1 as [|d v1 Hd _ IH]; intros v2 H2 Hr1 Hr2 Heq.
  - destruct H2 as [|d' v2 Hd' _]; [done|]. simpl in Heq. subst rest1.
    specialize (Hr1 d' eq_refl). congruence.
  - destruct H2 as [|d' v2 Hd' H2]; simpl in Heq.
    + subst rest2. specialize (Hr2 d eq_refl). congruence.
    + injection Heq as <- Heq. by destruct (IH v2 H2 Hr1 Hr2 Heq) as [-> ->].
Qed.

Ltac eval_py_all :=
  repeat match goal with
  | H : context [py ?s] |- _ =>
    let l := eval vm_compute in (py s) in change (py s) with l in H
  | |- context [py ?s] =>
    let l := eval vm_compute in (py s) in change (py s) with l
  end.

Lemma accept_prefix_free node1 node2 rest1 rest2 :
  node_wf node1 → node_wf node2 →
  (∀ c, head rest1 = Some c → isdigit c = false) →
  (∀ c, head rest2 = Some c → isdigit c = false) →
  DebugVisitor.accept node1 ++ rest1 = DebugVisitor.accept node2 ++ rest2 →
  node1 = node2 ∧ rest1 = rest2.
Proof.
  revert node2 rest1 rest2.
  induction node1 as [v1|op1 l1 IHl r1 IHr|e1 IH];
    intros [v2|op2 l2 r2|e2] rest1 rest2 Hwf1 Hwf2 Hr1 Hr2 Heq;
    cbn [DebugVisitor.accept node_wf] in *; eval_py_all;
    rewrite <-?app_assoc in Heq; cbn [app] in Heq.
  - destruct Hwf1 as [_ Hd1], Hwf2 as [_ Hd2].
    by destruct (digit_run_unique _ _ _ _ Hd1 Hd2 Hr1 Hr2 Heq) as [-> ->].
  - destruct Hwf1 as [Hne Hd]. destruct Hd as [|d v1 Hd _]; [done|].
    injection Heq as -> _. by vm_compute in Hd.
  - destruct Hwf1 as [Hne Hd]. destruct Hd as [|d v1 Hd _]; [done|].
    injection Heq as -> _. by vm_compute in Hd.
  - destruct Hwf2 as [Hne Hd]. destruct Hd as [|d v2 Hd _]; [done|].
    injection Heq as <- _. by vm_compute in Hd.
  - destruct Hwf1 as (Hop1 & Hl1 & Hw1), Hwf2 as (Hop2 & Hl2 & Hw2).
    injection Heq as Heq.
    apply IHl in Heq as [-> Heq]; [|done|done|intros c [= <-]; by vm_compute|intros c [= <-]; by vm_compute].
    injection Heq as Heq.
    assert (op1 = op2
            ∧ DebugVisitor.accept r1 ++ 41 :: rest1
              = DebugVisitor.accept r2 ++ 41 :: rest2) as [-> Heq'].
    { elem_of_cases Hop1; elem_of_cases Hop2; subst; by simplify_eq/=. }
    apply IHr in Heq' as [-> Heq']; [|done|done|intros c [= <-]; by vm_compute|intros c [= <-]; by vm_compute].
    by injection Heq' as ->.
  - done.
  - destruct Hwf2 as [Hne Hd]. destruct Hd as [|d v2 Hd _]; [done|].
    injection Heq as <- _. by vm_compute in Hd.
  - done.
  - injection Heq as Heq.
    apply IH in Heq as [-> Heq]; [|done|done|intros c [= <-]; by vm_compute|intros c [= <-]; by vm_compute].
    by injection Heq as ->.
Qed.

(** X18. [DebugVisitor] loses nothing of a tree of the parser: two trees
    whose numbers are non-empty digit strings and whose operators are among
    [+ - * /] have the same structure echo only if they are the same
    tree. *)
Theorem debug_echo_injective node1 node2 :
  node_wf node1 → node_wf node2 →
  DebugVisitor.accept node1 = DebugVisitor.accept node2 →
  node1 = node2.
Proof.
  intros Hwf1 Hwf2 Heq.
  destruct (accept_prefix_free node1 node2 [] [] Hwf1 Hwf2) as [-> _];
    [done..| |done].
  by rewrite !app_nil_r.
Qed.

Lemma debug_echo_injective_witness :
  BinaryOpNode (py "-")
    (BinaryOpNode (py "-") (NumberNode (py "1")) (NumberNode (py "2")))
    (NumberNode (py "3"))
  = BinaryOpNode [45]
      (BinaryOpNode [45] (NumberNode [49]) (NumberNode [50]))
      (NumberNode [51]).
Proof.
  apply debug_echo_injective.
  - simpl. split_and!; try done; try (repeat constructor; compute_done).
  - simpl. split_and!; try done; try (repeat constructor; compute_done).
  - by vm_compute.
Defined.

(** ** Termination of the loops *)

(** X19. The loops of the lexer and the recursion of the parser end.  On
    every input each loop of the lexer ([tokenize], [_skip_whitespace],
    [_read_number]) ends within as many iterations as the normalized input
    has characters, and two; on the tokens of an input the calls and loop
    iterations of [parse_expr], [parse_term] and [parse_factor] nest no
    deeper than three per token, and three.  Within these bounds, and
    within any larger ones, the result is the same value or exception. *)
Theorem lexer_and_parser_terminate latex fuel :
  (length (normalized latex) + 2 ≤ fuel)%nat →
  Lexer.tokenize_loop fuel (Lexer.__init__ latex) [] = tokenize latex
  ∧ tokenize latex ≠ OutOfFuel
  ∧ ∀ toks fuel',
      tokenize latex = Ok toks →
      (3 * length toks + 3 ≤ fuel')%nat →
      (Parser.parse_with fuel' (Parser.__init__ toks)).1 = parse toks
      ∧ parse toks ≠ OutOfFuel.
Proof.
  intros Hle. split_and!.
  - by apply tokenize_fuel.
  - apply tokenize_total.
  - intros toks fuel' Htok Hle'.
    assert (∃ tok, tok ∈ toks ∧ type tok = EOF) as Heof.
    { destruct (tokenize_Ok _ _ Htok) as (body & -> & _).
      exists (mkToken EOF []). split; [|done]. apply elem_of_app. right.
      by left. }
    split.
    + unfold parse. by rewrite parse_fuel.
    + by apply parse_total.
Qed.

Lemma lexer_and_parser_terminate_witness :
  Lexer.tokenize_loop 9 (Lexer.__init__ (py "$(1+2)$")) []
  = tokenize (py "$(1+2)$").
Proof.
  apply (lexer_and_parser_terminate (py "$(1+2)$") 9). vm_compute. lia.
Defined.
